(** * The touch-handler splicing script [.insert_handlers.py]

    The script reads a TypeScript source file and a text file holding a
    block of lines, builds [lines[:633] + handlers + lines[633:]] and
    writes the result back over the source file, then prints a
    confirmation.

    This development embeds the script together with the part of Python's
    text I/O it relies on ([open] in modes ['r'] and ['w'] with
    [encoding='utf-8'] and the default [newline=None], [readlines],
    [writelines], list slicing, [print]) and proves the properties the
    specification states about it. *)

From Stdlib Require Import ZArith List Lia.
From Stdlib Require Import Strings.Byte Strings.String.
From stdpp Require Import gmap strings list.

Local Open Scope Z_scope.

(* ===================================================================== *)
(** * Text *)
(* ===================================================================== *)

(** A Python [str] is represented by its UTF-8 encoding.  Encoding and
    strict decoding are mutually inverse between code-point sequences and
    valid UTF-8 byte sequences, and the only characters the script ever
    inspects, ['\n'] and ['\r'], are single bytes that never occur inside a
    multi-byte sequence; so decoding amounts to a validity check and
    encoding to the identity. *)
Definition str := list byte.

Definition LF : byte := x0a.
Definition CR : byte := x0d.

Definition is_LF (b : byte) : bool := Byte.eqb b LF.
Definition is_CR (b : byte) : bool := Byte.eqb b CR.

Definition in_range (lo hi : N) (b : byte) : bool :=
  ((lo <=? Byte.to_N b) && (Byte.to_N b <=? hi))%N.

Definition is_cont (b : byte) : bool := in_range 128 191 b.

(** Admissible second byte of a three-byte sequence: no overlong forms
    after [E0], no surrogates after [ED]. *)
Definition second_of_3 (b0 b1 : byte) : bool :=
  if Byte.eqb b0 xe0 then in_range 160 191 b1
  else if Byte.eqb b0 xed then in_range 128 159 b1
  else is_cont b1.

(** Admissible second byte of a four-byte sequence: no overlong forms
    after [F0], nothing above U+10FFFF after [F4]. *)
Definition second_of_4 (b0 b1 : byte) : bool :=
  if Byte.eqb b0 xf0 then in_range 144 191 b1
  else if Byte.eqb b0 xf4 then in_range 128 143 b1
  else is_cont b1.

(** The strict UTF-8 decoder ([encoding='utf-8'], [errors='strict'])
    accepts exactly the well-formed sequences. *)
Fixpoint utf8_valid (bs : list byte) : bool :=
  match bs with
  | [] => true
  | b0 :: r0 =>
      if in_range 0 127 b0 then utf8_valid r0
      else
        match r0 with
        | [] => false
        | b1 :: r1 =>
            if in_range 194 223 b0 then is_cont b1 && utf8_valid r1
            else
              match r1 with
              | [] => false
              | b2 :: r2 =>
                  if in_range 224 239 b0
                  then second_of_3 b0 b1 && is_cont b2 && utf8_valid r2
                  else
                    match r2 with
                    | [] => false
                    | b3 :: r3 =>
                        in_range 240 244 b0 && second_of_4 b0 b1
                        && is_cont b2 && is_cont b3 && utf8_valid r3
                    end
              end
        end
  end.

(** Universal-newlines translation on input ([newline=None]): the
    terminators ['\r\n'] and ['\r'] are both delivered as ['\n']. *)
Fixpoint translate_newlines (s : str) : str :=
  match s with
  | [] => []
  | c :: r =>
      if is_CR c then
        LF :: match r with
              | [] => []
              | d :: r' => if is_LF d then translate_newlines r'
                           else translate_newlines r
              end
      else c :: translate_newlines r
  end.

(** The host platform fixes [os.linesep]. *)
Inductive platform := Posix | Windows.

Definition os_linesep (os : platform) : str :=
  match os with
  | Posix => [LF]
  | Windows => [CR; LF]
  end.

(** Translation on output ([newline=None]): every ['\n'] written is
    replaced by [os.linesep]. *)
Fixpoint write_newlines (os : platform) (s : str) : str :=
  match s with
  | [] => []
  | c :: r =>
      if is_LF c then os_linesep os ++ write_newlines os r
      else c :: write_newlines os r
  end.

(** The list of lines of a text, each with its terminating ['\n']; only
    the last line may lack one.  This is what [readlines] returns once the
    text has gone through [translate_newlines]. *)
Fixpoint split_lines (s : str) : list str :=
  match s with
  | [] => []
  | c :: r =>
      if is_LF c then [c] :: split_lines r
      else
        match split_lines r with
        | [] => [[c]]
        | l :: ls => (c :: l) :: ls
        end
  end.

(* ===================================================================== *)
(** * List slicing *)
(* ===================================================================== *)

(** Python normalises a slice bound [k] against the length of the list:
    a negative bound counts from the end, and the result is clamped to
    [0 .. len]. *)
Definition slice_bound (len k : Z) : Z :=
  if k <? 0 then Z.max 0 (len + k) else Z.min k len.

(** [l[:k]] *)
Definition slice_to {A} (l : list A) (k : Z) : list A :=
  take (Z.to_nat (slice_bound (Z.of_nat (length l)) k)) l.

(** [l[k:]] *)
Definition slice_from {A} (l : list A) (k : Z) : list A :=
  drop (Z.to_nat (slice_bound (Z.of_nat (length l)) k)) l.

(** The list built on line 12 of the script, for an insertion index [i]:
    [lines[:i] + handlers + lines[i:]]. *)
Definition splice (lines handlers : list str) (i : Z) : list str :=
  slice_to lines i ++ handlers ++ slice_from lines i.

(* ===================================================================== *)
(** * Files, handles and the I/O monad *)
(* ===================================================================== *)

(** A regular file: its bytes and whether the process may read or write
    it.  Directories and failures of the device are outside the model. *)
Record file := File {
  f_data : list byte;
  f_readable : bool;
  f_writable : bool
}.

Inductive mode := ModeR | ModeW.

(** A file object as returned by [open]. *)
Record handle := Handle {
  h_id : nat;
  h_path : string;
  h_mode : mode
}.

(** What the process does to the outside, in order.  Opening a file in
    mode ['w'] truncates it, so [EvOpen] with [ModeW] is already a
    mutation of the file. *)
Inductive event :=
| EvOpen (h : handle)
| EvRead (h : handle)
| EvWrite (h : handle) (data : list byte)
| EvClose (h : handle)
| EvPrint (s : str).

(** The file system is a table of files by inode and a table of names:
    a path names a file through its inode, and two paths, by a hard link
    or a symbolic link that [open] follows, may name the same one. *)
Record world := World {
  w_os : platform;
  w_names : gmap string nat;
  w_inodes : gmap nat file;
  w_stdout : str;
  w_next : nat;
  w_trace : list event
}.

(** The file system as [open] sees it: the file each path leads to.  A
    name whose inode is gone leads nowhere. *)
Definition w_fs (w : world) : gmap string file :=
  omap (fun n => w_inodes w !! n) (w_names w).

(** Two paths that lead to one file. *)
Definition aliased (w : world) (p q : string) : Prop :=
  is_Some (w_names w !! p) ∧ w_names w !! p = w_names w !! q.

(** The inode a write through [p] goes to: the one [p] names, or a new
    one that no name leads to when [p] is not a name yet. *)
Definition inode_of (w : world) (p : string) : nat :=
  match w_names w !! p with
  | Some n => n
  | None => fresh (dom (w_inodes w) ∪ map_img (SA:=gset nat) (w_names w))
  end.

(** The exceptions of the script.  Those raised by [open] carry the path;
    a decoding error carries none. *)
Inductive exn :=
| FileNotFoundError (path : string)
| PermissionError (path : string)
| UnicodeDecodeError
| UnsupportedOperation
| OSError (path : string).

Inductive result (A : Type) :=
| Ok (a : A)
| Raise (e : exn).
Arguments Ok {A} a.
Arguments Raise {A} e.

(** A computation runs in a world and leaves a world behind, also when it
    raises: what was done before the exception stays done. *)
Definition io (A : Type) : Type := world → result A * world.

Definition ret {A} (a : A) : io A := fun w => (Ok a, w).

Definition raise {A} (e : exn) : io A := fun w => (Raise e, w).

Definition bind {A B} (m : io A) (k : A → io B) : io B :=
  fun w =>
    match m w with
    | (Ok a, w') => k a w'
    | (Raise e, w') => (Raise e, w')
    end.

Notation "'let!' x ':=' m 'in' k" := (bind m (fun x => k))
  (at level 10, x name, m at level 100, k at level 200, only parsing).
Notation "'do!' m 'in' k" := (bind m (fun _ => k))
  (at level 10, m at level 100, k at level 200, only parsing).

Definition log (e : event) (w : world) : world :=
  World (w_os w) (w_names w) (w_inodes w) (w_stdout w) (w_next w)
    (w_trace w ++ [e]).

(** Storing [f] through the path [p] replaces the file [p] leads to, for
    every path that leads to it. *)
Definition set_file (p : string) (f : file) (w : world) : world :=
  World (w_os w) (<[p := inode_of w p]> (w_names w))
    (<[inode_of w p := f]> (w_inodes w))
    (w_stdout w) (w_next w) (w_trace w).

Definition fresh_handle (p : string) (m : mode) (w : world) : handle * world :=
  (Handle (w_next w) p m,
   World (w_os w) (w_names w) (w_inodes w) (w_stdout w) (S (w_next w))
     (w_trace w)).

(** [open(path, 'r', encoding='utf-8')] and [open(path, 'w',
    encoding='utf-8')].  Mode ['w'] creates the file if it is missing and
    truncates it otherwise. *)
Definition py_open (p : string) (m : mode) : io handle :=
  fun w =>
    match m, w_fs w !! p with
    | ModeR, None => (Raise (FileNotFoundError p), w)
    | ModeR, Some f =>
        if f_readable f then
          let '(h, w1) := fresh_handle p m w in (Ok h, log (EvOpen h) w1)
        else (Raise (PermissionError p), w)
    | ModeW, None =>
        let '(h, w1) := fresh_handle p m w in
        (Ok h, log (EvOpen h) (set_file p (File [] true true) w1))
    | ModeW, Some f =>
        if f_writable f then
          let '(h, w1) := fresh_handle p m w in
          (Ok h, log (EvOpen h)
                   (set_file p (File [] (f_readable f) (f_writable f)) w1))
        else (Raise (PermissionError p), w)
    end.

Definition py_close (h : handle) (w : world) : world := log (EvClose h) w.

(** [with open(p, m, encoding='utf-8') as f: body]: the handle is closed
    on every exit from the body. *)
Definition with_open {A} (p : string) (m : mode) (body : handle → io A) : io A :=
  fun w =>
    match py_open p m w with
    | (Raise e, w1) => (Raise e, w1)
    | (Ok h, w1) => let '(r, w2) := body h w1 in (r, py_close h w2)
    end.

(** [f.readlines()]: the whole file is decoded, its newlines translated,
    and the text cut into lines.  Nothing in the model removes a file
    while a handle on it is open; the [OSError] case is there to make the
    function total. *)
Definition readlines (h : handle) : io (list str) :=
  fun w =>
    match h_mode h with
    | ModeW => (Raise UnsupportedOperation, w)
    | ModeR =>
        match w_fs w !! h_path h with
        | None => (Raise (OSError (h_path h)), w)
        | Some f =>
            if utf8_valid (f_data f)
            then (Ok (split_lines (translate_newlines (f_data f))),
                  log (EvRead h) w)
            else (Raise UnicodeDecodeError, w)
        end
    end.

(** [f.writelines(ls)]: the strings are written one after the other,
    nothing is put between them.  A device that fails while the data is
    written or flushed (a full disk) is outside the model: here a write
    through an open handle goes through. *)
Definition writelines (h : handle) (ls : list str) : io unit :=
  fun w =>
    match h_mode h with
    | ModeR => (Raise UnsupportedOperation, w)
    | ModeW =>
        match w_fs w !! h_path h with
        | None => (Raise (OSError (h_path h)), w)
        | Some f =>
            let data := write_newlines (w_os w) (concat ls) in
            (Ok tt,
             log (EvWrite h data)
               (set_file (h_path h)
                  (File (f_data f ++ data) (f_readable f) (f_writable f)) w))
        end
    end.

(** [print(s)] writes [s] and a newline to standard output. *)
Definition print (s : str) : io unit :=
  fun w =>
    (Ok tt,
     log (EvPrint s)
       (World (w_os w) (w_names w) (w_inodes w) (w_stdout w ++ s ++ [LF])
          (w_next w) (w_trace w))).

(* ===================================================================== *)
(** * The script *)
(* ===================================================================== *)

Definition target_path : string := "src/components/player/playerController.ts".
Definition insertion_path : string := ".tmp_touch_handlers.txt".
Definition success_message : str :=
  list_byte_of_string "Touch handlers inserted successfully".

(** The script with its insertion index as a parameter. *)
Definition script (i : Z) : io unit :=
  let! lines := with_open target_path ModeR readlines in
  let! handlers := with_open insertion_path ModeR readlines in
  let result := splice lines handlers i in
  do! with_open target_path ModeW (fun f => writelines f result) in
  print success_message.

(** The script as written: handlers go in after line 633. *)
Definition main : io unit := script 633.

(** The interpreter exits with status 0 when the script runs to its end
    and with status 1 on an uncaught exception. *)
Definition exit_status {A} (r : result A) : Z :=
  match r with
  | Ok _ => 0
  | Raise _ => 1
  end.

(* ===================================================================== *)
(** * Observations on worlds *)
(* ===================================================================== *)

(** The bytes of the file at [p], if there is one. *)
Definition contents (w : world) (p : string) : option (list byte) :=
  f_data <$> w_fs w !! p.

(** The text a read of [p] delivers. *)
Definition text_of (w : world) (p : string) : option str :=
  match w_fs w !! p with
  | Some f =>
      if f_readable f && utf8_valid (f_data f)
      then Some (translate_newlines (f_data f)) else None
  | None => None
  end.

(** The line sequence a read of [p] delivers. *)
Definition lines_of (w : world) (p : string) : option (list str) :=
  split_lines <$> text_of w p.

Definition writable (w : world) (p : string) : bool :=
  match w_fs w !! p with
  | Some f => f_writable f
  | None => true
  end.

(** The events a run starting in [w] and ending in [w'] has added. *)
Definition events_since (w w' : world) : list event :=
  drop (length (w_trace w)) (w_trace w').

(* ===================================================================== *)
(** * Shapes of texts and line sequences *)
(* ===================================================================== *)

Definition no_CR (s : str) : Prop := Forall (fun b => is_CR b = false) s.
Definition no_LF (s : str) : Prop := Forall (fun b => is_LF b = false) s.

(** A line that ends in its ['\n'] and one that has none. *)
Definition terminated (l : str) : Prop := ∃ b, l = b ++ [LF] ∧ no_LF b.
Definition unterminated (l : str) : Prop := l ≠ [] ∧ no_LF l.

(** The shape of a line sequence: every line ends in ['\n'] and has no
    other, except that the last one may have none at all. *)
Inductive lines_wf : list str → Prop :=
| wf_nil : lines_wf []
| wf_last l : unterminated l → lines_wf [l]
| wf_cons l ls : terminated l → lines_wf ls → lines_wf (l :: ls).

(** Well-formed UTF-8, as a relation: a text is a sequence of one-, two-,
    three- and four-byte characters.  [utf8_valid] decides it. *)
Inductive utf8 : list byte → Prop :=
| utf8_nil : utf8 []
| utf8_1 b r :
    in_range 0 127 b = true → utf8 r → utf8 (b :: r)
| utf8_2 b0 b1 r :
    in_range 0 127 b0 = false → in_range 194 223 b0 = true →
    is_cont b1 = true → utf8 r → utf8 (b0 :: b1 :: r)
| utf8_3 b0 b1 b2 r :
    in_range 0 127 b0 = false → in_range 194 223 b0 = false →
    in_range 224 239 b0 = true →
    second_of_3 b0 b1 = true → is_cont b2 = true →
    utf8 r → utf8 (b0 :: b1 :: b2 :: r)
| utf8_4 b0 b1 b2 b3 r :
    in_range 0 127 b0 = false → in_range 194 223 b0 = false →
    in_range 224 239 b0 = false → in_range 240 244 b0 = true →
    second_of_4 b0 b1 = true → is_cont b2 = true → is_cont b3 = true →
    utf8 r → utf8 (b0 :: b1 :: b2 :: b3 :: r).

(* ===================================================================== *)
(** * Worlds and traces of a run *)
(* ===================================================================== *)

(** The world after [k] more handles were handed out and the events [evs]
    took place, the files being as they were. *)
Definition ran (k : nat) (evs : list event) (w : world) : world :=
  World (w_os w) (w_names w) (w_inodes w) (w_stdout w) (k + w_next w)
    (w_trace w ++ evs).

(** The three handles of a run that starts in [w]. *)
Definition target_reader (w : world) : handle :=
  Handle (w_next w) target_path ModeR.
Definition insertion_reader (w : world) : handle :=
  Handle (S (w_next w)) insertion_path ModeR.
Definition target_writer (w : world) : handle :=
  Handle (S (S (w_next w))) target_path ModeW.

Definition read_events (h : handle) : list event :=
  [EvOpen h; EvRead h; EvClose h].
Definition decode_failure_events (h : handle) : list event :=
  [EvOpen h; EvClose h].
Definition write_events (h : handle) (data : list byte) : list event :=
  [EvOpen h; EvWrite h data; EvClose h].

(** The bytes a run writes for the lines [T] of the target and the lines
    [S] of the insertion file. *)
Definition written (os : platform) (T S : list str) (i : Z) : list byte :=
  write_newlines os (concat (splice T S i)).

(** The world a run that goes through leaves behind. *)
Definition succeeded (i : Z) (ft fi : file) (w : world) : world :=
  let T := split_lines (translate_newlines (f_data ft)) in
  let S := split_lines (translate_newlines (f_data fi)) in
  let data := written (w_os w) T S i in
  World (w_os w)
    (<[target_path := inode_of w target_path]> (w_names w))
    (<[inode_of w target_path
       := File data (f_readable ft) (f_writable ft)]> (w_inodes w))
    (w_stdout w ++ success_message ++ [LF])
    (3 + w_next w)
    (w_trace w ++ read_events (target_reader w)
       ++ read_events (insertion_reader w)
       ++ write_events (target_writer w) data
       ++ [EvPrint success_message]).

(* ===================================================================== *)
(** * Order of the events of a run *)
(* ===================================================================== *)

(** An event that changes the file at [p]: opening it for writing, which
    truncates it, or writing to it. *)
Definition mutates (p : string) (e : event) : Prop :=
  match e with
  | EvOpen h => h_path h = p ∧ h_mode h = ModeW
  | EvWrite h _ => h_path h = p
  | _ => False
  end.

(** Before position [k] of the trace, some handle on [p] has read the file
    and has been closed. *)
Definition read_completed_before (p : string) (evs : list event) (k : nat) : Prop :=
  ∃ h a b,
    (a < b < k)%nat ∧ h_path h = p
    ∧ evs !! a = Some (EvRead h) ∧ evs !! b = Some (EvClose h).

(** Every change of the file at [p] comes after a completed read of it. *)
Definition reads_before_writes (p : string) (evs : list event) : Prop :=
  ∀ k e, evs !! k = Some e → mutates p e → read_completed_before p evs k.

(** No handle is both read from and written to. *)
Definition no_mixed_handle (evs : list event) : Prop :=
  ∀ h d, ¬ (EvRead h ∈ evs ∧ EvWrite h d ∈ evs).

(** An event that writes through a handle. *)
Definition is_write (e : event) : Prop :=
  match e with
  | EvWrite _ _ => True
  | _ => False
  end.

(* ===================================================================== *)
(** * Worlds for the examples *)
(* ===================================================================== *)

(** The files of a world with a target and an insertion file, both
    readable and writable, on which the examples below run. *)
Definition world_of (os : platform) (t s : list byte) : world :=
  World os
    (<[target_path := 0%nat]> (<[insertion_path := 1%nat]> ∅))
    (<[0%nat := File t true true]> (<[1%nat := File s true true]> ∅))
    [] 0 [].

(** A world in which the insertion file is missing. *)
Definition world_without_insertion (t : list byte) : world :=
  World Posix (<[target_path := 0%nat]> ∅) (<[0%nat := File t true true]> ∅)
    [] 0 [].

Definition line (s : string) : str := list_byte_of_string s ++ [LF].

(* ===================================================================== *)
(** * Exceptions, paths and handles in a trace *)
(* ===================================================================== *)

(** The path an exception is about. *)
Definition exn_path (e : exn) : option string :=
  match e with
  | FileNotFoundError p | PermissionError p | OSError p => Some p
  | UnicodeDecodeError | UnsupportedOperation => None
  end.

(** An event on a handle for the file at [p]. *)
Definition on_path (p : string) (e : event) : Prop :=
  match e with
  | EvOpen h | EvRead h | EvWrite h _ | EvClose h => h_path h = p
  | EvPrint _ => False
  end.

(** The handle opened at position [k] of the trace is closed later on, and
    before any other handle is opened. *)
Definition closed_before_next_open (evs : list event) : Prop :=
  ∀ k h, evs !! k = Some (EvOpen h) →
    ∃ k', (k < k')%nat ∧ evs !! k' = Some (EvClose h)
          ∧ ∀ j h', (k < j < k')%nat → evs !! j ≠ Some (EvOpen h').

(** A world whose target is read-only. *)
Definition world_read_only (t s : list byte) : world :=
  World Posix
    (<[target_path := 0%nat]> (<[insertion_path := 1%nat]> ∅))
    (<[0%nat := File t true false]> (<[1%nat := File s true true]> ∅))
    [] 0 [].

(** A world in which the insertion path is a link to the target: both
    paths lead to the one file. *)
Definition world_linked (os : platform) (t : list byte) : world :=
  World os
    (<[target_path := 0%nat]> (<[insertion_path := 0%nat]> ∅))
    (<[0%nat := File t true true]> ∅)
    [] 0 [].

(** A world without any file. *)
Definition world_empty : world := World Posix ∅ ∅ [] 0 [].

(* ===================================================================== *)
(** * Slicing and the spliced list *)
(* ===================================================================== *)

Section Slicing.
Context {A : Type}.
Implicit Types (l : list A) (i : Z).

Lemma slice_bound_valid (n i : Z) : 0 ≤ i ≤ n → slice_bound n i = i.
Proof. intros H. unfold slice_bound. destruct (Z.ltb_spec i 0); lia. Qed.

Lemma slice_bound_beyond (n i : Z) : 0 ≤ n → n < i → slice_bound n i = n.
Proof. intros Hn H. unfold slice_bound. destruct (Z.ltb_spec i 0); lia. Qed.

Lemma slice_to_valid l i :
  0 ≤ i ≤ Z.of_nat (length l) → slice_to l i = take (Z.to_nat i) l.
Proof. intros H. unfold slice_to. by rewrite slice_bound_valid. Qed.

Lemma slice_from_valid l i :
  0 ≤ i ≤ Z.of_nat (length l) → slice_from l i = drop (Z.to_nat i) l.
Proof. intros H. unfold slice_from. by rewrite slice_bound_valid. Qed.

Lemma slice_to_beyond l i : Z.of_nat (length l) < i → slice_to l i = l.
Proof.
  intros H. unfold slice_to. rewrite slice_bound_beyond by lia.
  rewrite Nat2Z.id. apply firstn_all.
Qed.

Lemma slice_from_beyond l i : Z.of_nat (length l) < i → slice_from l i = [].
Proof.
  intros H. unfold slice_from. rewrite slice_bound_beyond by lia.
  rewrite Nat2Z.id. apply skipn_all.
Qed.

(** Whatever the bound, the two slices partition the list. *)
Lemma slice_to_from l i : slice_to l i ++ slice_from l i = l.
Proof. unfold slice_to, slice_from. apply take_drop. Qed.
End Slicing.

Lemma splice_valid (T S : list str) (i : Z) :
  0 ≤ i ≤ Z.of_nat (length T) →
  splice T S i = take (Z.to_nat i) T ++ S ++ drop (Z.to_nat i) T.
Proof.
  intros H. unfold splice. by rewrite slice_to_valid, slice_from_valid.
Qed.

Lemma splice_length (T S : list str) (i : Z) :
  length (splice T S i) = (length T + length S)%nat.
Proof.
  unfold splice. rewrite !length_app.
  pose proof (f_equal length (slice_to_from T i)) as H.
  rewrite length_app in H. lia.
Qed.

Lemma take_splice (T S : list str) (n : nat) :
  (n ≤ length T)%nat → take n (take n T ++ S ++ drop n T) = take n T.
Proof.
  intros H. apply take_app_length'. rewrite length_take. lia.
Qed.

Lemma drop_splice (T S : list str) (n : nat) :
  (n ≤ length T)%nat → drop n (take n T ++ S ++ drop n T) = S ++ drop n T.
Proof.
  intros H. apply drop_app_length'. rewrite length_take. lia.
Qed.

(** At or beyond the end of the target, the insertion is appended. *)
Lemma splice_past_length (T S : list str) (i : Z) :
  Z.of_nat (length T) < i → splice T S i = T ++ S.
Proof.
  intros H. unfold splice.
  rewrite slice_to_beyond, slice_from_beyond by done.
  by rewrite app_nil_r.
Qed.

Lemma splice_at_zero (T S : list str) : splice T S 0 = S ++ T.
Proof. by rewrite splice_valid by lia. Qed.

Lemma splice_at_length (T S : list str) :
  splice T S (Z.of_nat (length T)) = T ++ S.
Proof.
  rewrite splice_valid by lia. rewrite Nat2Z.id.
  by rewrite firstn_all, skipn_all, app_nil_r.
Qed.

Lemma splice_from_end (T S : list str) (i : Z) :
  Z.of_nat (length T) ≤ i → splice T S i = T ++ S.
Proof.
  intros H. destruct (Z.eq_dec i (Z.of_nat (length T))) as [->|Hne].
  - apply splice_at_length.
  - apply splice_past_length. lia.
Qed.

(* ===================================================================== *)
(** * Newline translation and line splitting *)
(* ===================================================================== *)

Lemma is_LF_true (b : byte) : is_LF b = true ↔ b = LF.
Proof.
  unfold is_LF. split; [apply byte_dec_bl | intros ->; by apply byte_dec_lb].
Qed.

Lemma is_CR_true (b : byte) : is_CR b = true ↔ b = CR.
Proof.
  unfold is_CR. split; [apply byte_dec_bl | intros ->; by apply byte_dec_lb].
Qed.

Lemma is_LF_not_CR (b : byte) : is_LF b = true → is_CR b = false.
Proof. intros ->%is_LF_true. reflexivity. Qed.

(** Induction over a list two elements at a time, as [translate_newlines]
    recurses. *)
Lemma list_pair_ind {A} (P : list A → Prop) :
  P [] → (∀ a, P [a]) → (∀ a b l, P l → P (b :: l) → P (a :: b :: l)) →
  ∀ l, P l.
Proof.
  intros Hnil Hone Hstep l.
  assert (P l ∧ ∀ a, P (a :: l)) as [H _]; [|exact H].
  induction l as [|b l [IH1 IH2]]; split; auto.
Qed.

Lemma write_newlines_posix (s : str) : write_newlines Posix s = s.
Proof.
  induction s as [|c r IH]; simpl; [done|].
  destruct (is_LF c) eqn:E; simpl; rewrite IH; [|done].
  apply is_LF_true in E. by subst.
Qed.

Lemma write_newlines_app os (s t : str) :
  write_newlines os (s ++ t) = write_newlines os s ++ write_newlines os t.
Proof.
  induction s as [|c r IH]; simpl; [done|].
  destruct (is_LF c); rewrite IH; [by rewrite app_assoc | done].
Qed.

(** A text without ['\n'] is written as it is. *)
Lemma write_newlines_no_LF os (s : str) : no_LF s → write_newlines os s = s.
Proof.
  induction 1 as [|c r Hc _ IH]; simpl; [done|]. by rewrite Hc, IH.
Qed.

(** A text without ['\r'] is read as it is. *)
Lemma translate_newlines_no_CR (s : str) : no_CR s → translate_newlines s = s.
Proof.
  induction 1 as [|c r Hc _ IH]; simpl; [done|]. by rewrite Hc, IH.
Qed.

(** A text that has been read holds no ['\r']. *)
Lemma translate_newlines_clean (s : str) : no_CR (translate_newlines s).
Proof.
  induction s as [|a|a b l IH1 IH2] using list_pair_ind.
  - constructor.
  - simpl. destruct (is_CR a) eqn:E; repeat constructor; done.
  - change (translate_newlines (a :: b :: l)) with
      (if is_CR a
       then LF :: (if is_LF b then translate_newlines l
                   else translate_newlines (b :: l))
       else a :: translate_newlines (b :: l)).
    destruct (is_CR a) eqn:Ea; [|by constructor].
    constructor; [done|]. by destruct (is_LF b).
Qed.

(** Reading back what was written gives the text that was written, on
    either platform, provided the text holds no ['\r']. *)
Lemma translate_write_newlines os (s : str) :
  no_CR s → translate_newlines (write_newlines os s) = s.
Proof.
  induction 1 as [|c r Hc _ IH]; simpl; [done|].
  destruct (is_LF c) eqn:E.
  - apply is_LF_true in E. subst c. destruct os; simpl; by rewrite IH.
  - simpl. by rewrite Hc, IH.
Qed.

(** Cutting a text into lines loses nothing. *)
Lemma concat_split_lines (s : str) : concat (split_lines s) = s.
Proof.
  induction s as [|c r IH]; simpl; [done|].
  destruct (is_LF c).
  - simpl. by rewrite IH.
  - destruct (split_lines r) as [|l ls]; simpl in *; by rewrite <- IH.
Qed.

Lemma terminated_cons (c : byte) (l : str) :
  is_LF c = false → terminated l → terminated (c :: l).
Proof.
  intros Hc (b & -> & Hb). exists (c :: b). split; [done|]. by constructor.
Qed.

Lemma unterminated_cons (c : byte) (l : str) :
  is_LF c = false → no_LF l → unterminated (c :: l).
Proof. intros Hc Hl. split; [done|]. by constructor. Qed.

Lemma terminated_app (l s : str) : no_LF l → terminated s → terminated (l ++ s).
Proof.
  intros Hl (b & -> & Hb). exists (l ++ b).
  split; [by rewrite app_assoc|]. by apply Forall_app.
Qed.

Lemma unterminated_app (l s : str) :
  unterminated l → unterminated s → unterminated (l ++ s).
Proof.
  intros [Hne Hl] [_ Hs]. split; [by destruct l|]. by apply Forall_app.
Qed.

Lemma split_lines_wf (s : str) : lines_wf (split_lines s).
Proof.
  induction s as [|c r IH]; simpl; [constructor|].
  destruct (is_LF c) eqn:E.
  - apply is_LF_true in E. subst c.
    apply wf_cons; [|done]. exists []. split; [done | constructor].
  - destruct (split_lines r) as [|l ls]; inversion IH; subst.
    + apply wf_last, unterminated_cons; [done | constructor].
    + apply wf_last, unterminated_cons; [done|]. by destruct H0.
    + apply wf_cons; [|done]. by apply terminated_cons.
Qed.

Lemma split_lines_terminated (l r : str) :
  terminated l → split_lines (l ++ r) = l :: split_lines r.
Proof.
  intros (b & -> & Hb). induction Hb as [|c b Hc _ IH]; simpl; [done|].
  rewrite Hc. simpl in IH. by rewrite IH.
Qed.

Lemma split_lines_unterminated (l : str) : unterminated l → split_lines l = [l].
Proof.
  intros [Hne Hl]. induction Hl as [|c l Hc Hl IH]; [done|]. simpl. rewrite Hc.
  destruct l as [|d l]; [done|]. by rewrite IH.
Qed.

(** A well-formed line sequence is the line sequence of its
    concatenation. *)
Lemma split_lines_concat (ls : list str) :
  lines_wf ls → split_lines (concat ls) = ls.
Proof.
  induction 1 as [|l Hl|l ls Hl _ IH]; simpl.
  - done.
  - rewrite app_nil_r. by apply split_lines_unterminated.
  - rewrite split_lines_terminated by done. by rewrite IH.
Qed.

Lemma lines_wf_app (ls ks : list str) :
  Forall terminated ls → lines_wf ks → lines_wf (ls ++ ks).
Proof. induction 1; simpl; [done|]. intros. apply wf_cons; auto. Qed.

Lemma lines_wf_snoc_inv (ls : list str) (l : str) :
  lines_wf (ls ++ [l]) → Forall terminated ls ∧ lines_wf [l].
Proof.
  induction ls as [|k ls IH]; simpl; intros H; [by split|].
  inversion H as [|? Hk Heq|? ? Hk Hls]; subst.
  - by destruct ls.
  - destruct (IH Hls). split; [by constructor | done].
Qed.

(** Joining a line without terminator to the first line of a well-formed
    sequence gives a well-formed sequence again. *)
Lemma lines_wf_join (T S' : list str) (l s : str) :
  lines_wf (T ++ [l]) → ¬ terminated l → lines_wf (s :: S') →
  lines_wf (T ++ (l ++ s) :: S').
Proof.
  intros [HT Hl]%lines_wf_snoc_inv Hnt HS.
  assert (unterminated l) as Hu.
  { inversion Hl as [|? Hu|? ? Hterm _]; subst; [done | by destruct Hnt]. }
  apply lines_wf_app; [done|].
  inversion HS as [|? Hs|? ? Hs HS']; subst.
  - by apply wf_last, unterminated_app.
  - apply wf_cons; [|done]. apply terminated_app; [apply Hu | done].
Qed.

(* ===================================================================== *)
(** * Well-formed UTF-8 through translation and splitting *)
(* ===================================================================== *)

Lemma utf8_valid_sound (s : list byte) : utf8_valid s = true → utf8 s.
Proof.
  induction s as [s IH] using (induction_ltof1 _ (@length byte)).
  unfold ltof in IH. intros H.
  destruct s as [|b0 r0]; [constructor|]. simpl in H.
  destruct (in_range 0 127 b0) eqn:E1.
  { apply utf8_1; [done|]. apply IH; [simpl; lia | done]. }
  destruct r0 as [|b1 r1]; [done|].
  destruct (in_range 194 223 b0) eqn:E2.
  { apply andb_true_iff in H as [? ?].
    apply utf8_2; try done. apply IH; [simpl; lia | done]. }
  destruct r1 as [|b2 r2]; [done|].
  destruct (in_range 224 239 b0) eqn:E3.
  { apply andb_true_iff in H as [[? ?]%andb_true_iff ?].
    apply utf8_3; try done. apply IH; [simpl; lia | done]. }
  destruct r2 as [|b3 r3]; [done|].
  apply andb_true_iff in H as [[[[? ?]%andb_true_iff ?]%andb_true_iff ?]%andb_true_iff ?].
  apply utf8_4; try done. apply IH; [simpl; lia | done].
Qed.

Lemma utf8_valid_complete (s : list byte) : utf8 s → utf8_valid s = true.
Proof.
  induction 1 as [|b r H1 _ IH|b0 b1 r H1 H2 H3 _ IH
                  |b0 b1 b2 r H1 H2 H3 H4 H5 _ IH
                  |b0 b1 b2 b3 r H1 H2 H3 H4 H5 H6 H7 _ IH]; simpl.
  - done.
  - by rewrite H1.
  - by rewrite H1, H2, H3.
  - by rewrite H1, H2, H3, H4, H5.
  - by rewrite H1, H2, H3, H4, H5, H6, H7.
Qed.

Lemma not_ascii_not_newline (b : byte) :
  in_range 0 127 b = false → is_CR b = false ∧ is_LF b = false.
Proof. destruct b; vm_compute; intros; (done || by split). Qed.

Lemma cont_not_newline (b : byte) :
  is_cont b = true → is_CR b = false ∧ is_LF b = false.
Proof. destruct b; vm_compute; intros; (done || by split). Qed.

Lemma second_of_3_not_newline (b0 b1 : byte) :
  second_of_3 b0 b1 = true → is_CR b1 = false ∧ is_LF b1 = false.
Proof.
  unfold second_of_3.
  destruct (Byte.eqb b0 xe0); [|destruct (Byte.eqb b0 xed)];
    destruct b1; vm_compute; intros; (done || by split).
Qed.

Lemma second_of_4_not_newline (b0 b1 : byte) :
  second_of_4 b0 b1 = true → is_CR b1 = false ∧ is_LF b1 = false.
Proof.
  unfold second_of_4.
  destruct (Byte.eqb b0 xf0); [|destruct (Byte.eqb b0 xf4)];
    destruct b1; vm_compute; intros; (done || by split).
Qed.

Lemma utf8_app (s t : list byte) : utf8 s → utf8 t → utf8 (s ++ t).
Proof. induction 1; simpl; intros; [done|by constructor; auto..]. Qed.

Lemma utf8_tail (b : byte) (r : list byte) :
  in_range 0 127 b = true → utf8 (b :: r) → utf8 r.
Proof. intros Hb H. inversion H; subst; [done | congruence..]. Qed.

Lemma ascii_LF : in_range 0 127 LF = true.
Proof. reflexivity. Qed.

Lemma translate_newlines_cons (c : byte) (r : str) :
  is_CR c = false → translate_newlines (c :: r) = c :: translate_newlines r.
Proof. intros H. simpl. by rewrite H. Qed.

Lemma write_newlines_cons os (c : byte) (r : str) :
  is_LF c = false → write_newlines os (c :: r) = c :: write_newlines os r.
Proof. intros H. simpl. by rewrite H. Qed.

Lemma utf8_translate_newlines (s : str) : utf8 s → utf8 (translate_newlines s).
Proof.
  induction 1 as [|b r H1 Hr IH|b0 b1 r H1 H2 H3 _ IH
                  |b0 b1 b2 r H1 H2 H3 H4 H5 _ IH
                  |b0 b1 b2 b3 r H1 H2 H3 H4 H5 H6 H7 _ IH].
  - constructor.
  - simpl. destruct (is_CR b) eqn:Eb; [|by apply utf8_1].
    apply utf8_1; [apply ascii_LF|].
    destruct r as [|d r']; [constructor|].
    destruct (is_LF d) eqn:Ed; [|done].
    rewrite translate_newlines_cons in IH by by apply is_LF_not_CR.
    apply is_LF_true in Ed. subst d. by apply utf8_tail in IH.
  - destruct (not_ascii_not_newline _ H1), (cont_not_newline _ H3).
    rewrite !translate_newlines_cons by done. by apply utf8_2.
  - destruct (not_ascii_not_newline _ H1), (second_of_3_not_newline _ _ H4),
      (cont_not_newline _ H5).
    rewrite !translate_newlines_cons by done. by apply utf8_3.
  - destruct (not_ascii_not_newline _ H1), (second_of_4_not_newline _ _ H5),
      (cont_not_newline _ H6), (cont_not_newline _ H7).
    rewrite !translate_newlines_cons by done. by apply utf8_4.
Qed.

Lemma utf8_write_newlines os (s : str) : utf8 s → utf8 (write_newlines os s).
Proof.
  induction 1 as [|b r H1 Hr IH|b0 b1 r H1 H2 H3 _ IH
                  |b0 b1 b2 r H1 H2 H3 H4 H5 _ IH
                  |b0 b1 b2 b3 r H1 H2 H3 H4 H5 H6 H7 _ IH].
  - constructor.
  - simpl. destruct (is_LF b) eqn:Eb; [|by apply utf8_1].
    destruct os; simpl; repeat (apply utf8_1; [reflexivity|]); done.
  - destruct (not_ascii_not_newline _ H1), (cont_not_newline _ H3).
    rewrite !write_newlines_cons by done. by apply utf8_2.
  - destruct (not_ascii_not_newline _ H1), (second_of_3_not_newline _ _ H4),
      (cont_not_newline _ H5).
    rewrite !write_newlines_cons by done. by apply utf8_3.
  - destruct (not_ascii_not_newline _ H1), (second_of_4_not_newline _ _ H5),
      (cont_not_newline _ H6), (cont_not_newline _ H7).
    rewrite !write_newlines_cons by done. by apply utf8_4.
Qed.

Lemma split_lines_cons (c : byte) (r : str) :
  is_LF c = false →
  split_lines (c :: r)
  = match split_lines r with [] => [[c]] | l :: ls => (c :: l) :: ls end.
Proof. intros H. simpl. by rewrite H. Qed.

Lemma utf8_split_lines (s : str) : utf8 s → Forall utf8 (split_lines s).
Proof.
  induction 1 as [|b r H1 Hr IH|b0 b1 r H1 H2 H3 _ IH
                  |b0 b1 b2 r H1 H2 H3 H4 H5 _ IH
                  |b0 b1 b2 b3 r H1 H2 H3 H4 H5 H6 H7 _ IH].
  - constructor.
  - simpl. destruct (is_LF b).
    + constructor; [|done]. apply utf8_1; [done | constructor].
    + destruct (split_lines r) as [|l ls].
      * repeat constructor; done.
      * inversion IH; subst. constructor; [by apply utf8_1 | done].
  - destruct (not_ascii_not_newline _ H1), (cont_not_newline _ H3).
    rewrite !split_lines_cons by done.
    destruct (split_lines r) as [|l ls].
    + constructor; [|constructor]. apply utf8_2; try done. constructor.
    + inversion IH; subst. constructor; [by apply utf8_2 | done].
  - destruct (not_ascii_not_newline _ H1), (second_of_3_not_newline _ _ H4),
      (cont_not_newline _ H5).
    rewrite !split_lines_cons by done.
    destruct (split_lines r) as [|l ls].
    + constructor; [|constructor]. apply utf8_3; try done. constructor.
    + inversion IH; subst. constructor; [by apply utf8_3 | done].
  - destruct (not_ascii_not_newline _ H1), (second_of_4_not_newline _ _ H5),
      (cont_not_newline _ H6), (cont_not_newline _ H7).
    rewrite !split_lines_cons by done.
    destruct (split_lines r) as [|l ls].
    + constructor; [|constructor]. apply utf8_4; try done. constructor.
    + inversion IH; subst. constructor; [by apply utf8_4 | done].
Qed.

Lemma utf8_concat (ls : list str) : Forall utf8 ls → utf8 (concat ls).
Proof.
  induction 1; simpl; [constructor | by apply utf8_app].
Qed.

Lemma no_CR_split_lines (s : str) : no_CR s → Forall no_CR (split_lines s).
Proof.
  induction 1 as [|c r Hc Hr IH]; simpl; [constructor|].
  destruct (is_LF c).
  - constructor; [|done]. by repeat constructor.
  - destruct (split_lines r) as [|l ls].
    + by repeat constructor.
    + inversion IH; subst. constructor; [by constructor | done].
Qed.

Lemma no_CR_concat (ls : list str) : Forall no_CR ls → no_CR (concat ls).
Proof.
  induction 1; simpl; [constructor | by apply Forall_app].
Qed.

Lemma Forall_splice (P : str → Prop) (T S : list str) (i : Z) :
  Forall P T → Forall P S → Forall P (splice T S i).
Proof.
  intros HT HS. unfold splice, slice_to, slice_from.
  rewrite !Forall_app. split_and!; [by apply Forall_take | done | by apply Forall_drop].
Qed.

(* ===================================================================== *)
(** * Running the script *)
(* ===================================================================== *)

(** ** Names, inodes and the files paths lead to *)

Lemma w_fs_lookup (w : world) (p : string) :
  w_fs w !! p = w_names w !! p ≫= (fun n => w_inodes w !! n).
Proof. unfold w_fs. apply lookup_omap. Qed.

Lemma w_fs_named (w : world) (p : string) (f : file) :
  w_fs w !! p = Some f →
  ∃ n, w_names w !! p = Some n ∧ w_inodes w !! n = Some f.
Proof.
  rewrite w_fs_lookup. destruct (w_names w !! p) as [n|]; [|done].
  simpl. intros H. by exists n.
Qed.

Lemma inode_of_named (w : world) (p : string) (n : nat) :
  w_names w !! p = Some n → inode_of w p = n.
Proof. intros H. unfold inode_of. by rewrite H. Qed.

(** Writing through a name that exists leaves the names as they are. *)
Lemma names_insert_named (w : world) (p : string) (n : nat) :
  w_names w !! p = Some n → <[p := inode_of w p]> (w_names w) = w_names w.
Proof. intros H. rewrite (inode_of_named _ _ _ H). by apply insert_id. Qed.

(** After a file was stored through [p], [p] leads to it. *)
Lemma stored_lookup (p : string) (f : file)
    (names : gmap string nat) (inodes : gmap nat file) (n : nat) :
  omap (fun m => <[n := f]> inodes !! m) (<[p := n]> names) !! p = Some f.
Proof. rewrite lookup_omap, lookup_insert_eq. simpl. apply lookup_insert_eq. Qed.

(** A path that leads elsewhere than [p] leads where it did. *)
Lemma stored_lookup_other (p q : string) (f : file)
    (names : gmap string nat) (inodes : gmap nat file) (n : nat) :
  names !! p = Some n → names !! q ≠ Some n →
  omap (fun m => <[n := f]> inodes !! m) (<[p := n]> names) !! q
  = omap (fun m => inodes !! m) names !! q.
Proof.
  intros Hp Hq. rewrite (insert_id names p n Hp), !lookup_omap.
  destruct (names !! q) as [m|]; [|done]. simpl.
  apply lookup_insert_ne. congruence.
Qed.

(** A path that leads to the same file as [p] leads to what was stored. *)
Lemma stored_lookup_alias (p q : string) (f : file)
    (names : gmap string nat) (inodes : gmap nat file) (n : nat) :
  names !! p = Some n → names !! q = Some n →
  omap (fun m => <[n := f]> inodes !! m) (<[p := n]> names) !! q = Some f.
Proof.
  intros Hp Hq. rewrite (insert_id names p n Hp), lookup_omap, Hq. simpl.
  apply lookup_insert_eq.
Qed.

Lemma paths_distinct : target_path ≠ insertion_path.
Proof. discriminate. Qed.

Lemma with_open_read (p : string) (w : world) :
  with_open p ModeR readlines w =
  let h := Handle (w_next w) p ModeR in
  match w_fs w !! p with
  | None => (Raise (FileNotFoundError p), w)
  | Some f =>
      if f_readable f then
        if utf8_valid (f_data f)
        then (Ok (split_lines (translate_newlines (f_data f))),
              ran 1 (read_events h) w)
        else (Raise UnicodeDecodeError, ran 1 (decode_failure_events h) w)
      else (Raise (PermissionError p), w)
  end.
Proof.
  unfold with_open, py_open, readlines, py_close, fresh_handle, log, ran, w_fs.
  simpl.
  destruct (omap (fun n => w_inodes w !! n) (w_names w) !! p) as [f|] eqn:Hf;
    [|done].
  destruct (f_readable f); [|done]. simpl. rewrite Hf.
  destruct (utf8_valid (f_data f)); simpl; by rewrite <- !app_assoc.
Qed.

Lemma inode_of_stored (os : platform) (names : gmap string nat)
    (inodes : gmap nat file) (so : str) (nx : nat) (tr : list event)
    (p : string) (n : nat) :
  inode_of (World os (<[p := n]> names) inodes so nx tr) p = n.
Proof. unfold inode_of. simpl. by rewrite lookup_insert_eq. Qed.

Lemma with_open_write (p : string) (ls : list str) (w : world) :
  with_open p ModeW (fun f => writelines f ls) w =
  let h := Handle (w_next w) p ModeW in
  let data := write_newlines (w_os w) (concat ls) in
  let done_ r wr :=
    (Ok tt,
     World (w_os w) (<[p := inode_of w p]> (w_names w))
       (<[inode_of w p := File data r wr]> (w_inodes w)) (w_stdout w)
       (S (w_next w)) (w_trace w ++ write_events h data)) in
  match w_fs w !! p with
  | None => done_ true true
  | Some f =>
      if f_writable f then done_ (f_readable f) (f_writable f)
      else (Raise (PermissionError p), w)
  end.
Proof.
  assert (∀ r wr : bool,
            (let '(h, w1) := fresh_handle p ModeW w in
             let '(res, w2) :=
               writelines h ls
                 (log (EvOpen h) (set_file p (File [] r wr) w1)) in
             (res, py_close h w2))
            = (Ok tt,
               World (w_os w) (<[p := inode_of w p]> (w_names w))
                 (<[inode_of w p
                    := File (write_newlines (w_os w) (concat ls)) r wr]>
                    (w_inodes w))
                 (w_stdout w) (S (w_next w))
                 (w_trace w
                    ++ write_events (Handle (w_next w) p ModeW)
                         (write_newlines (w_os w) (concat ls))))) as Hgo.
  { intros r wr.
    unfold fresh_handle, writelines, py_close, log, set_file, w_fs. simpl.
    rewrite stored_lookup. simpl. rewrite inode_of_stored.
    change (inode_of (World (w_os w) (w_names w) (w_inodes w) (w_stdout w)
                        (S (w_next w)) (w_trace w)) p)
      with (inode_of w p).
    by rewrite !insert_insert_eq, <- !app_assoc. }
  simpl. unfold with_open, py_open.
  destruct (w_fs w !! p) as [f|] eqn:Hf.
  - destruct (f_writable f) eqn:Hw; [|done]. apply Hgo.
  - apply Hgo.
Qed.

Lemma w_fs_ran (k : nat) (evs : list event) (w : world) :
  w_fs (ran k evs w) = w_fs w.
Proof. reflexivity. Qed.

Lemma inode_of_ran (k : nat) (evs : list event) (w : world) (p : string) :
  inode_of (ran k evs w) p = inode_of w p.
Proof. reflexivity. Qed.

(** The script, run symbolically: which of its steps fails is decided by
    the files as they are when the run starts. *)
Lemma script_unfold (i : Z) (w : world) :
  script i w =
  let ht := target_reader w in
  let hi := insertion_reader w in
  match w_fs w !! target_path with
  | None => (Raise (FileNotFoundError target_path), w)
  | Some ft =>
      if negb (f_readable ft) then (Raise (PermissionError target_path), w)
      else if negb (utf8_valid (f_data ft)) then
        (Raise UnicodeDecodeError, ran 1 (decode_failure_events ht) w)
      else
        match w_fs w !! insertion_path with
        | None =>
            (Raise (FileNotFoundError insertion_path),
             ran 1 (read_events ht) w)
        | Some fi =>
            if negb (f_readable fi) then
              (Raise (PermissionError insertion_path),
               ran 1 (read_events ht) w)
            else if negb (utf8_valid (f_data fi)) then
              (Raise UnicodeDecodeError,
               ran 2 (read_events ht ++ decode_failure_events hi) w)
            else if negb (f_writable ft) then
              (Raise (PermissionError target_path),
               ran 2 (read_events ht ++ read_events hi) w)
            else (Ok tt, succeeded i ft fi w)
        end
  end.
Proof.
  unfold script, bind. rewrite with_open_read. simpl.
  destruct (w_fs w !! target_path) as [ft|] eqn:Ht; [|done].
  destruct (f_readable ft) eqn:Hrt; [|done].
  destruct (utf8_valid (f_data ft)) eqn:Hvt; [|done]. simpl.
  rewrite with_open_read. simpl. rewrite w_fs_ran.
  destruct (w_fs w !! insertion_path) as [fi|] eqn:Hi; [|done].
  destruct (f_readable fi) eqn:Hri; [|done].
  destruct (utf8_valid (f_data fi)) eqn:Hvi; simpl.
  2:{ unfold ran. simpl. by rewrite <- app_assoc. }
  rewrite with_open_write. simpl. rewrite !w_fs_ran, Ht.
  destruct (f_writable ft) eqn:Hwt; simpl.
  2:{ unfold ran. simpl. by rewrite <- app_assoc. }
  rewrite !inode_of_ran.
  unfold print, log, succeeded, written. simpl.
  rewrite Hwt. by rewrite <- !app_assoc.
Qed.

Lemma events_since_ran (k : nat) (evs : list event) (w : world) :
  events_since w (ran k evs w) = evs.
Proof. unfold events_since, ran. simpl. apply drop_app_length. Qed.

Lemma events_since_succeeded (i : Z) (ft fi : file) (w : world) :
  events_since w (succeeded i ft fi w) =
  let T := split_lines (translate_newlines (f_data ft)) in
  let S := split_lines (translate_newlines (f_data fi)) in
  read_events (target_reader w) ++ read_events (insertion_reader w)
    ++ write_events (target_writer w) (written (w_os w) T S i)
    ++ [EvPrint success_message].
Proof. unfold events_since, succeeded. simpl. apply drop_app_length. Qed.

Lemma events_since_refl (w : world) : events_since w w = [].
Proof. unfold events_since. apply drop_all. Qed.

(** After a run that went through, the target path leads to the file
    written; so does every path that led to the same file, and every
    other path leads where it did. *)
Lemma succeeded_target (i : Z) (ft fi : file) (w : world) :
  w_fs (succeeded i ft fi w) !! target_path
  = Some (File (written (w_os w)
                  (split_lines (translate_newlines (f_data ft)))
                  (split_lines (translate_newlines (f_data fi))) i)
            (f_readable ft) (f_writable ft)).
Proof. unfold succeeded, w_fs. simpl. apply stored_lookup. Qed.

Lemma succeeded_unaliased (i : Z) (ft fi : file) (w : world) (q : string) :
  is_Some (w_names w !! target_path) →
  w_names w !! q ≠ w_names w !! target_path →
  w_fs (succeeded i ft fi w) !! q = w_fs w !! q.
Proof.
  intros [n Hn] Hq. unfold succeeded, w_fs. simpl.
  rewrite (inode_of_named _ _ _ Hn).
  apply stored_lookup_other; [done | congruence].
Qed.

Lemma succeeded_aliased (i : Z) (ft fi : file) (w : world) (q : string) :
  aliased w q target_path →
  w_fs (succeeded i ft fi w) !! q
  = w_fs (succeeded i ft fi w) !! target_path.
Proof.
  intros [[n Hn] Hq]. rewrite succeeded_target.
  unfold succeeded, w_fs. simpl.
  rewrite (inode_of_named _ target_path n) by congruence.
  apply stored_lookup_alias; congruence.
Qed.

Lemma text_of_Some (w : world) (p : string) (t : str) :
  text_of w p = Some t →
  ∃ f, w_fs w !! p = Some f ∧ f_readable f = true
       ∧ utf8_valid (f_data f) = true ∧ t = translate_newlines (f_data f).
Proof.
  unfold text_of. destruct (w_fs w !! p) as [f|]; [|done].
  destruct (f_readable f) eqn:Hr; [|done].
  destruct (utf8_valid (f_data f)) eqn:Hv; [|done]. simpl.
  intros [= <-]. by exists f.
Qed.

Lemma lines_of_Some (w : world) (p : string) (ls : list str) :
  lines_of w p = Some ls →
  ∃ f, w_fs w !! p = Some f ∧ f_readable f = true
       ∧ utf8_valid (f_data f) = true
       ∧ ls = split_lines (translate_newlines (f_data f)).
Proof.
  unfold lines_of. destruct (text_of w p) as [t|] eqn:Ht; [|done].
  simpl. intros [= <-]. apply text_of_Some in Ht as (f & ? & ? & ? & ->).
  by exists f.
Qed.

(** What a read delivers is a well-formed line sequence without ['\r']. *)
Lemma lines_of_wf (w : world) (p : string) (ls : list str) :
  lines_of w p = Some ls → lines_wf ls.
Proof.
  intros (f & _ & _ & _ & ->)%lines_of_Some. apply split_lines_wf.
Qed.

(** The run goes through as soon as both files can be read and the target
    can be written; the target then holds the text built from the two
    line sequences, and reading it again delivers the lines of that
    text. *)
Lemma script_succeeds (i : Z) (w : world) (T S : list str) :
  lines_of w target_path = Some T →
  lines_of w insertion_path = Some S →
  writable w target_path = true →
  ∃ w', script i w = (Ok tt, w')
        ∧ w_os w' = w_os w
        ∧ contents w' target_path = Some (written (w_os w) T S i)
        ∧ w_stdout w' = w_stdout w ++ success_message ++ [LF]
        ∧ lines_of w' target_path
          = Some (split_lines (concat (splice T S i))).
Proof.
  intros (ft & Ht & Hrt & Hvt & ->)%lines_of_Some
         (fi & Hi & Hri & Hvi & ->)%lines_of_Some Hw.
  unfold writable in Hw. rewrite Ht in Hw.
  rewrite script_unfold. simpl. rewrite Ht, Hi, Hrt, Hvt, Hri, Hvi, Hw. simpl.
  eexists. split; [done|]. split; [done|].
  unfold contents, lines_of, text_of. rewrite succeeded_target. simpl.
  split; [done|]. split; [done|].
  rewrite Hrt. simpl.
  set (T := split_lines (translate_newlines (f_data ft))).
  set (S := split_lines (translate_newlines (f_data fi))).
  assert (utf8 (concat (splice T S i))) as Hu.
  { apply utf8_concat, Forall_splice;
      by apply utf8_split_lines, utf8_translate_newlines, utf8_valid_sound. }
  assert (no_CR (concat (splice T S i))) as Hn.
  { apply no_CR_concat, Forall_splice;
      apply no_CR_split_lines, translate_newlines_clean. }
  unfold written.
  rewrite (utf8_valid_complete _ (utf8_write_newlines (w_os w) _ Hu)). simpl.
  by rewrite translate_write_newlines.
Qed.

(** Discharges [Forall (fun e => ¬ mutates p e) evs] for an explicit list
    of events none of which changes [p]. *)
Ltac no_mutation :=
  unfold read_events, decode_failure_events, write_events; simpl;
  repeat (apply List.Forall_cons;
          [simpl; first [tauto | by intros [_ [=]] | by intros [[=] _]
                        | by intros [=]] |]);
  apply List.Forall_nil.

Ltac no_write :=
  unfold read_events, decode_failure_events, write_events; simpl;
  repeat (apply List.Forall_cons; [simpl; tauto |]);
  apply List.Forall_nil.

(** A trace in which the target is never changed and nothing is written
    meets the ordering requirements trivially, and belongs to a run that
    raised. *)
Lemma quiet_trace (evs : list event) (e : exn) (h : handle) :
  Forall (fun e => ¬ mutates target_path e) evs →
  Forall (fun e => ¬ is_write e) evs →
  reads_before_writes target_path evs
  ∧ no_mixed_handle evs
  ∧ (@Raise unit e = Ok tt → ∃ d, evs !! 7%nat = Some (EvWrite h d)).
Proof.
  intros Hno Hnw. split_and!.
  - intros k ev Hk Hm. exfalso.
    by apply (proj1 (Forall_lookup _ _) Hno k ev Hk).
  - intros h' d [_ Hwr].
    by apply (proj1 (Forall_forall _ _) Hnw _ Hwr).
  - done.
Qed.

Ltac failed_run :=
  rewrite ?events_since_refl, ?events_since_ran;
  apply quiet_trace; [no_mutation | no_write].

(* ===================================================================== *)
(** * Properties of the spliced list *)
(* ===================================================================== *)

(** The three end-to-end scenarios of the specification. *)
Example scenario_middle :
  splice [line "a"; line "b"; line "c"] [line "X"] 1
  = [line "a"; line "X"; line "b"; line "c"].
Proof. reflexivity. Qed.

Example scenario_start :
  splice [line "a"; line "b"] [line "X"; line "Y"] 0
  = [line "X"; line "Y"; line "a"; line "b"].
Proof. reflexivity. Qed.

Example scenario_empty_insertion :
  splice [line "a"; line "b"] [] 1 = [line "a"; line "b"].
Proof. reflexivity. Qed.

(** A negative bound counts from the end, as in Python. *)
Example scenario_negative_index :
  splice [line "a"; line "b"; line "c"] [line "X"] (-1)
  = [line "a"; line "b"; line "X"; line "c"].
Proof. reflexivity. Qed.

(** C3. When the insertion index exceeds the length of the target
    sequence, both slices are clamped to the end of the list and the
    insertion is appended: the output is [T ++ S]. *)
Theorem splice_beyond_end_appends (T S : list str) (i : Z) :
  Z.of_nat (length T) < i → splice T S i = T ++ S.
Proof. apply splice_past_length. Qed.

Lemma splice_beyond_end_appends_witness :
  splice [line "a"; line "b"] [line "X"] 633 = [line "a"; line "b"] ++ [line "X"].
Proof. apply splice_beyond_end_appends. simpl. lia. Defined.

(** C4. Splicing is not idempotent: splicing a non-empty [S] a second time
    at the same valid index yields [T[0:i] ++ S ++ S ++ T[i:]], two copies
    of [S], which is not what one splice yields. *)
Theorem splice_twice_two_copies (T S : list str) (i : Z) :
  S ≠ [] → 0 ≤ i ≤ Z.of_nat (length T) →
  splice (splice T S i) S i
  = take (Z.to_nat i) T ++ S ++ S ++ drop (Z.to_nat i) T
  ∧ splice (splice T S i) S i ≠ splice T S i.
Proof.
  intros HS Hi.
  assert (splice (splice T S i) S i
          = take (Z.to_nat i) T ++ S ++ S ++ drop (Z.to_nat i) T) as Heq.
  { rewrite (splice_valid (splice T S i))
      by (rewrite splice_length; lia).
    rewrite (splice_valid T) by done.
    rewrite take_splice, drop_splice by lia. done. }
  split; [done|]. intros Hsame. apply (f_equal length) in Hsame.
  rewrite !splice_length in Hsame. destruct S; [done|]. simpl in Hsame. lia.
Qed.

Lemma splice_twice_two_copies_witness :
  splice (splice [line "a"; line "b"] [line "X"] 1) [line "X"] 1
  = take 1 [line "a"; line "b"] ++ [line "X"] ++ [line "X"]
      ++ drop 1 [line "a"; line "b"]
  ∧ splice (splice [line "a"; line "b"] [line "X"] 1) [line "X"] 1
    ≠ splice [line "a"; line "b"] [line "X"] 1.
Proof.
  apply (splice_twice_two_copies [line "a"; line "b"] [line "X"] 1);
    [discriminate | simpl; lia].
Defined.

(** C5. Splicing the empty sequence at a valid index is a no-op: the
    output is [T]. *)
Theorem splice_empty_insertion (T : list str) (i : Z) :
  0 ≤ i ≤ Z.of_nat (length T) → splice T [] i = T.
Proof. intros _. unfold splice. simpl. apply slice_to_from. Qed.

Lemma splice_empty_insertion_witness :
  splice [line "a"; line "b"] [] 1 = [line "a"; line "b"].
Proof. apply splice_empty_insertion. simpl. lia. Defined.

(** C6. At index [0] the insertion comes first, [S ++ T]; at index
    [len(T)] it comes last, [T ++ S]. *)
Theorem splice_at_boundaries (T S : list str) :
  splice T S 0 = S ++ T
  ∧ splice T S (Z.of_nat (length T)) = T ++ S.
Proof. split; [apply splice_at_zero | apply splice_at_length]. Qed.

(* ===================================================================== *)
(** * Properties of a run *)
(* ===================================================================== *)

(** C1, as amended.  Let [T] and [S] be the line sequences the two reads
    deliver (in universal-newlines mode, so a ['\r\n'] or ['\r'] of a file
    has become ['\n']) and let [0 ≤ i ≤ len(T)].  Then the run goes
    through and the target file holds the concatenation of
    [T[0:i] ++ S ++ T[i:]] with every ['\n'] written as [os.linesep].  On
    a POSIX host this is the concatenation itself, byte for byte; and if
    moreover neither file holds a ['\r'], the lines are those of the two
    files with the terminators they had. *)
Theorem splice_written_to_target (w : world) (i : Z) (T S : list str) :
  lines_of w target_path = Some T →
  lines_of w insertion_path = Some S →
  writable w target_path = true →
  0 ≤ i ≤ Z.of_nat (length T) →
  ∃ w',
    script i w = (Ok tt, w')
    ∧ contents w' target_path
      = Some (write_newlines (w_os w)
                (concat (take (Z.to_nat i) T ++ S ++ drop (Z.to_nat i) T)))
    ∧ (w_os w = Posix →
       contents w' target_path
       = Some (concat (take (Z.to_nat i) T ++ S ++ drop (Z.to_nat i) T)))
    ∧ (∀ t s,
         w_os w = Posix →
         contents w target_path = Some t → no_CR t →
         contents w insertion_path = Some s → no_CR s →
         contents w' target_path
         = Some (concat (take (Z.to_nat i) (split_lines t) ++ split_lines s
                           ++ drop (Z.to_nat i) (split_lines t)))).
Proof.
  intros HT HS Hw Hi.
  destruct (script_succeeds i w T S HT HS Hw) as (w' & Hrun & _ & Hc & _).
  unfold written in Hc. rewrite splice_valid in Hc by done.
  exists w'. split; [done|]. split; [done|].
  assert (w_os w = Posix →
          contents w' target_path
          = Some (concat (take (Z.to_nat i) T ++ S ++ drop (Z.to_nat i) T)))
    as Hposix.
  { intros Hos. by rewrite Hc, Hos, write_newlines_posix. }
  split; [done|]. intros t s Hos Ht Hnt Hs Hns. rewrite (Hposix Hos).
  apply lines_of_Some in HT as (ft & Hft & _ & _ & ->).
  apply lines_of_Some in HS as (fi & Hfi & _ & _ & ->).
  unfold contents in Ht, Hs. rewrite Hft in Ht. rewrite Hfi in Hs.
  simpl in Ht, Hs. injection Ht as ->. injection Hs as ->.
  by rewrite !translate_newlines_no_CR.
Qed.

Lemma splice_written_to_target_witness :
  ∃ w',
    script 1 (world_of Posix (line "a" ++ line "b" ++ line "c") (line "X"))
    = (Ok tt, w')
    ∧ contents w' target_path
      = Some (line "a" ++ line "X" ++ line "b" ++ line "c").
Proof.
  destruct (splice_written_to_target
              (world_of Posix (line "a" ++ line "b" ++ line "c") (line "X"))
              1 [line "a"; line "b"; line "c"] [line "X"])
    as (w' & Hrun & _ & Hc & _);
    [reflexivity | reflexivity | reflexivity | simpl; lia |].
  exists w'. split; [exact Hrun | exact (Hc eq_refl)].
Defined.

(** C1 as stated does not hold.  On a POSIX host, a target file [a\r\n]
    spliced with an empty insertion file at the valid index 1 is rewritten
    as [a\n]: the terminator the line had is not preserved, and the file
    is not left byte for byte as the concatenation of its lines.  On a
    Windows host, a target file [a\n] is read as the one line [a\n] and
    rewritten as [a\r\n], which is not the concatenation of the lines
    read. *)
Lemma original_terminator_not_preserved :
  (let w := world_of Posix (list_byte_of_string "a" ++ [CR; LF]) [] in
   fst (script 1 w) = Ok tt
   ∧ lines_of w target_path = Some [line "a"]
   ∧ lines_of w insertion_path = Some []
   ∧ contents w target_path = Some (list_byte_of_string "a" ++ [CR; LF])
   ∧ contents (snd (script 1 w)) target_path
     = Some (list_byte_of_string "a" ++ [LF])
   ∧ contents (snd (script 1 w)) target_path ≠ contents w target_path)
  ∧
  (let w := world_of Windows (line "a") [] in
   fst (script 1 w) = Ok tt
   ∧ lines_of w target_path = Some [line "a"]
   ∧ lines_of w insertion_path = Some []
   ∧ contents (snd (script 1 w)) target_path
     = Some (list_byte_of_string "a" ++ [CR; LF])
   ∧ contents (snd (script 1 w)) target_path
     ≠ Some (concat (take 1 [line "a"] ++ [] ++ drop 1 [line "a"]))).
Proof.
  split; cbv zeta; (repeat split; try (vm_compute; reflexivity));
    vm_compute; discriminate.
Qed.

(** C2. If the insertion file does not exist, the run fails (the
    interpreter exits with status 1) and leaves every file, the target in
    particular, as it was. *)
Theorem missing_insertion_leaves_target (i : Z) (w : world) :
  w_fs w !! insertion_path = None →
  ∃ e w',
    script i w = (Raise e, w')
    ∧ exit_status (fst (script i w)) = 1
    ∧ w_fs w' = w_fs w
    ∧ contents w' target_path = contents w target_path
    ∧ (is_Some (lines_of w target_path) →
       e = FileNotFoundError insertion_path).
Proof.
  intros Hi. rewrite script_unfold. simpl. rewrite Hi.
  unfold lines_of, text_of.
  destruct (w_fs w !! target_path) as [ft|] eqn:Ht;
    [destruct (f_readable ft); [destruct (utf8_valid (f_data ft))|]|];
    simpl; do 2 eexists; repeat split; try done; by intros [? [=]].
Qed.

Lemma missing_insertion_leaves_target_witness :
  ∃ e w',
    main (world_without_insertion (line "a" ++ line "b")) = (Raise e, w')
    ∧ exit_status (fst (main (world_without_insertion (line "a" ++ line "b"))))
      = 1
    ∧ w_fs w' = w_fs (world_without_insertion (line "a" ++ line "b"))
    ∧ contents w' target_path
      = contents (world_without_insertion (line "a" ++ line "b")) target_path
    ∧ (is_Some (lines_of (world_without_insertion (line "a" ++ line "b"))
                  target_path) →
       e = FileNotFoundError insertion_path).
Proof.
  apply (missing_insertion_leaves_target 633
           (world_without_insertion (line "a" ++ line "b"))).
  reflexivity.
Defined.

(** C7, as amended.  Provided the insertion path and the target path do
    not lead to the same file, the insertion file is never modified:
    after any run, whether it went through or raised, the file at
    [insertion_path] is what it was, and no event of the run opened that
    path for writing or wrote through it. *)
Theorem insertion_file_untouched (i : Z) (w : world) :
  ¬ aliased w insertion_path target_path →
  w_fs (snd (script i w)) !! insertion_path = w_fs w !! insertion_path
  ∧ contents (snd (script i w)) insertion_path = contents w insertion_path
  ∧ Forall (fun e => ¬ mutates insertion_path e)
      (events_since w (snd (script i w))).
Proof.
  intros Hno.
  assert (w_fs (snd (script i w)) !! insertion_path
          = w_fs w !! insertion_path
          ∧ Forall (fun e => ¬ mutates insertion_path e)
              (events_since w (snd (script i w)))) as [Hfs Hev].
  { rewrite script_unfold. simpl.
    destruct (w_fs w !! target_path) as [ft|] eqn:Ht;
      [|split; [done | rewrite events_since_refl; no_mutation]].
    destruct (f_readable ft); simpl;
      [|split; [done | rewrite events_since_refl; no_mutation]].
    destruct (utf8_valid (f_data ft)); simpl;
      [|split; [done | rewrite events_since_ran; no_mutation]].
    destruct (w_fs w !! insertion_path) as [fi|] eqn:Hi; simpl;
      [|split; [done | rewrite events_since_ran; no_mutation]].
    destruct (f_readable fi); simpl;
      [|split; [done | rewrite events_since_ran; no_mutation]].
    destruct (utf8_valid (f_data fi)); simpl;
      [|split; [done | rewrite events_since_ran; no_mutation]].
    destruct (f_writable ft); simpl;
      [|split; [done | rewrite events_since_ran; no_mutation]].
    split.
    - pose proof (w_fs_named _ _ _ Ht) as (n & Hn & _).
      rewrite succeeded_unaliased; [exact Hi | by eexists |].
      intros Heq. apply Hno. split; [|done]. rewrite Heq. by eexists.
    - rewrite events_since_succeeded. no_mutation. }
  split; [done|]. split; [|done]. unfold contents. by rewrite Hfs.
Qed.

Lemma insertion_file_untouched_witness :
  w_fs (snd (main (world_of Posix (line "a") (line "X")))) !! insertion_path
  = w_fs (world_of Posix (line "a") (line "X")) !! insertion_path
  ∧ contents (snd (main (world_of Posix (line "a") (line "X"))))
      insertion_path
    = contents (world_of Posix (line "a") (line "X")) insertion_path
  ∧ Forall (fun e => ¬ mutates insertion_path e)
      (events_since (world_of Posix (line "a") (line "X"))
         (snd (main (world_of Posix (line "a") (line "X"))))).
Proof.
  apply (insertion_file_untouched 633 (world_of Posix (line "a") (line "X"))).
  intros [_ H]. vm_compute in H. discriminate H.
Defined.

(** C7 as stated does not hold.  When the insertion path is a link to the
    target, so that both paths lead to one file holding [a\n], the run
    goes through and the bytes read through the insertion path have
    changed from [a\n] to [a\na\n]. *)
Lemma linked_insertion_file_changes :
  fst (main (world_linked Posix (line "a"))) = Ok tt
  ∧ contents (world_linked Posix (line "a")) insertion_path
    = Some (line "a")
  ∧ contents (snd (main (world_linked Posix (line "a")))) insertion_path
    = Some (line "a" ++ line "a")
  ∧ contents (snd (main (world_linked Posix (line "a")))) insertion_path
    ≠ contents (world_linked Posix (line "a")) insertion_path.
Proof.
  split_and!; try (vm_compute; reflexivity). vm_compute. discriminate.
Qed.

(** C8. The target is read in full, and the reading handle closed, before
    anything is written to it: in the events of any run, every truncation
    of or write to [target_path] comes after a completed read of
    [target_path]; no handle is both read from and written to; and a run
    that goes through does write, through the third handle. *)
Theorem target_read_before_written (i : Z) (w : world) :
  reads_before_writes target_path (events_since w (snd (script i w)))
  ∧ no_mixed_handle (events_since w (snd (script i w)))
  ∧ (fst (script i w) = Ok tt →
     ∃ d, events_since w (snd (script i w)) !! 7%nat
          = Some (EvWrite (target_writer w) d)).
Proof.
  rewrite script_unfold. simpl.
  destruct (w_fs w !! target_path) as [ft|]; simpl; [|failed_run].
  destruct (f_readable ft); simpl; [|failed_run].
  destruct (utf8_valid (f_data ft)); simpl; [|failed_run].
  destruct (w_fs w !! insertion_path) as [fi|]; simpl; [|failed_run].
  destruct (f_readable fi); simpl; [|failed_run].
  destruct (utf8_valid (f_data fi)); simpl; [|failed_run].
  destruct (f_writable ft); simpl; [|failed_run].
  rewrite events_since_succeeded. simpl. split_and!.
  - intros k e Hk Hm.
    assert (6 ≤ k)%nat as Hge.
    { do 6 (destruct k as [|k];
            [simpl in Hk; injection Hk as <-; simpl in Hm;
             try done; by destruct Hm as [_ [=]] |]).
      lia. }
    exists (target_reader w), 1%nat, 2%nat.
    split; [lia|]. by split.
  - intros h d [Hrd Hwr].
    rewrite !elem_of_cons, elem_of_nil in Hrd.
    rewrite !elem_of_cons, elem_of_nil in Hwr.
    destruct Hwr as [Hwr|[Hwr|[Hwr|[Hwr|[Hwr|[Hwr|[Hwr|[Hwr|[Hwr|[Hwr|[]]]]]]]]]]];
      try discriminate Hwr.
    injection Hwr as -> _.
    destruct Hrd as [Hrd|[Hrd|[Hrd|[Hrd|[Hrd|[Hrd|[Hrd|[Hrd|[Hrd|[Hrd|[]]]]]]]]]]];
      discriminate Hrd.
  - intros _. by eexists.
Qed.

(** C9. A run that goes through has written the confirmation message and
    a newline to standard output, as the last thing it did, and the
    interpreter exits with status 0. *)
Theorem success_reported (i : Z) (w w' : world) :
  script i w = (Ok tt, w') →
  w_stdout w' = w_stdout w ++ success_message ++ [LF]
  ∧ last (events_since w w') = Some (EvPrint success_message)
  ∧ exit_status (fst (script i w)) = 0.
Proof.
  intros Hrun. rewrite Hrun. simpl. split_and!; [| |done].
  all: rewrite script_unfold in Hrun; simpl in Hrun.
  all: destruct (w_fs w !! target_path) as [ft|]; [|done].
  all: destruct (f_readable ft); [|done].
  all: destruct (utf8_valid (f_data ft)); [|done].
  all: destruct (w_fs w !! insertion_path) as [fi|]; [|done].
  all: destruct (f_readable fi); [|done].
  all: destruct (utf8_valid (f_data fi)); [|done].
  all: destruct (f_writable ft); [|done].
  all: simpl in Hrun; injection Hrun as <-.
  - done.
  - by rewrite events_since_succeeded.
Qed.

Lemma success_reported_witness :
  w_stdout (snd (main (world_of Posix (line "a") (line "X"))))
  = success_message ++ [LF]
  ∧ last (events_since (world_of Posix (line "a") (line "X"))
            (snd (main (world_of Posix (line "a") (line "X")))))
    = Some (EvPrint success_message)
  ∧ exit_status (fst (main (world_of Posix (line "a") (line "X")))) = 0.
Proof.
  apply (success_reported 633 (world_of Posix (line "a") (line "X"))
           (snd (main (world_of Posix (line "a") (line "X"))))).
  vm_compute. reflexivity.
Defined.

(** C10. When the last line [l] of the target has no terminator, the
    insertion [s :: S'] is not empty and the index is at or beyond the end
    of the target, the run puts no terminator after [l]: in the file the
    bytes of [l] are followed at once by those of [s].  The two are one
    line of the output: reading the file again delivers the lines of the
    target but the last, then [l ++ s], then the rest of the insertion. *)
Theorem unterminated_last_line_joined
    (w : world) (i : Z) (T S' : list str) (l s : str) :
  lines_of w target_path = Some (T ++ [l]) →
  ¬ terminated l →
  lines_of w insertion_path = Some (s :: S') →
  writable w target_path = true →
  Z.of_nat (length (T ++ [l])) ≤ i →
  ∃ w',
    script i w = (Ok tt, w')
    ∧ contents w' target_path
      = Some (write_newlines (w_os w) (concat T) ++ l
                ++ write_newlines (w_os w) (s ++ concat S'))
    ∧ lines_of w' target_path = Some (T ++ [l ++ s] ++ S').
Proof.
  intros HT Hl HS Hw Hi.
  destruct (script_succeeds i w _ _ HT HS Hw)
    as (w' & Hrun & _ & Hc & _ & Hback).
  exists w'. split; [done|].
  assert (lines_wf (T ++ (l ++ s) :: S')) as Hwf.
  { apply lines_wf_join; [by eapply lines_of_wf | done | by eapply lines_of_wf]. }
  assert (no_LF l) as Hnl.
  { apply lines_of_wf, lines_wf_snoc_inv in HT as [_ HT].
    inversion HT as [|? [_ Hu]|? ? Hterm _]; subst; [done | by destruct Hl]. }
  assert (concat (splice (T ++ [l]) (s :: S') i)
          = concat T ++ l ++ s ++ concat S') as Hcat.
  { rewrite splice_from_end by done.
    rewrite !concat_app. simpl. by rewrite app_nil_r, <- !app_assoc. }
  split.
  - unfold written in Hc. rewrite Hcat in Hc.
    by rewrite !write_newlines_app, (write_newlines_no_LF _ l),
      <- write_newlines_app in Hc.
  - rewrite Hback, Hcat.
    replace (concat T ++ l ++ s ++ concat S')
      with (concat (T ++ (l ++ s) :: S'))
      by (rewrite concat_app; simpl; by rewrite <- app_assoc).
    by rewrite split_lines_concat.
Qed.

Lemma unterminated_last_line_joined_witness :
  ∃ w',
    main (world_of Posix (line "a" ++ list_byte_of_string "b")
            (line "X" ++ line "Y"))
    = (Ok tt, w')
    ∧ contents w' target_path
      = Some (line "a" ++ list_byte_of_string "b" ++ line "X" ++ line "Y")
    ∧ lines_of w' target_path
      = Some [line "a"; list_byte_of_string "b" ++ line "X"; line "Y"].
Proof.
  apply (unterminated_last_line_joined
           (world_of Posix (line "a" ++ list_byte_of_string "b")
              (line "X" ++ line "Y"))
           633 [line "a"] [line "Y"] (list_byte_of_string "b") (line "X")).
  - reflexivity.
  - intros (b & Hb & _). destruct b as [|? [|? ?]]; discriminate Hb.
  - reflexivity.
  - reflexivity.
  - simpl. lia.
Defined.

(* ===================================================================== *)
(** * Further properties: failures, frame and handles *)
(* ===================================================================== *)

Lemma lines_of_is_Some (w : world) (p : string) :
  is_Some (lines_of w p) ↔
  ∃ f, w_fs w !! p = Some f ∧ f_readable f = true
       ∧ utf8_valid (f_data f) = true.
Proof.
  unfold lines_of, text_of. split.
  - intros [ls H]. destruct (w_fs w !! p) as [f|]; [|done].
    exists f. destruct (f_readable f), (utf8_valid (f_data f)); done.
  - intros (f & -> & -> & ->). simpl. by eexists.
Qed.

Lemma lines_of_None (w : world) (p : string) :
  lines_of w p = None ↔
  match w_fs w !! p with
  | None => True
  | Some f => f_readable f = false ∨ utf8_valid (f_data f) = false
  end.
Proof.
  unfold lines_of, text_of. destruct (w_fs w !! p) as [f|]; [|done].
  destruct (f_readable f), (utf8_valid (f_data f)); simpl;
    split; intros H; try done; try (by left); try (by right); by destruct H.
Qed.

(** The world of a run that went through, in full. *)
Lemma script_succeeded_world (i : Z) (w : world) (T S : list str) :
  lines_of w target_path = Some T →
  lines_of w insertion_path = Some S →
  writable w target_path = true →
  ∃ ft fi,
    w_fs w !! target_path = Some ft ∧ w_fs w !! insertion_path = Some fi
    ∧ f_readable ft = true ∧ f_writable ft = true
    ∧ T = split_lines (translate_newlines (f_data ft))
    ∧ S = split_lines (translate_newlines (f_data fi))
    ∧ script i w = (Ok tt, succeeded i ft fi w).
Proof.
  intros (ft & Ht & Hrt & Hvt & ->)%lines_of_Some
         (fi & Hi & Hri & Hvi & ->)%lines_of_Some Hw.
  unfold writable in Hw. rewrite Ht in Hw.
  exists ft, fi. split_and!; try done.
  rewrite script_unfold. simpl. by rewrite Ht, Hi, Hrt, Hvt, Hri, Hvi, Hw.
Qed.

Lemma lines_of_ext (w w' : world) (p : string) :
  w_fs w' !! p = w_fs w !! p → lines_of w' p = lines_of w p.
Proof. intros H. unfold lines_of, text_of. by rewrite H. Qed.

Lemma lines_of_same_file (w w' : world) (p q : string) :
  w_fs w' !! q = w_fs w !! p → lines_of w' q = lines_of w p.
Proof. intros H. unfold lines_of, text_of. by rewrite H. Qed.

Lemma succeeded_writable (i : Z) (ft fi : file) (w : world) :
  writable (succeeded i ft fi w) target_path = f_writable ft.
Proof. unfold writable. by rewrite succeeded_target. Qed.

(** A second insertion at the same index goes in front of the first. *)
Lemma splice_splice (T S1 S2 : list str) (i : Z) :
  0 ≤ i ≤ Z.of_nat (length T) →
  splice (splice T S1 i) S2 i
  = take (Z.to_nat i) T ++ S2 ++ S1 ++ drop (Z.to_nat i) T.
Proof.
  intros Hi.
  rewrite (splice_valid (splice T S1 i)) by (rewrite splice_length; lia).
  rewrite (splice_valid T) by done.
  by rewrite take_splice, drop_splice by lia.
Qed.

(** Destructs the conditions [script_unfold] branches on, in the order in
    which the script meets them. *)
Ltac script_cases :=
  rewrite script_unfold; simpl;
  destruct (w_fs _ !! target_path) as [ft|] eqn:Hft; simpl;
  [destruct (f_readable ft) eqn:Hrt; simpl;
   [destruct (utf8_valid (f_data ft)) eqn:Hvt; simpl;
    [destruct (w_fs _ !! insertion_path) as [fi|] eqn:Hfi; simpl;
     [destruct (f_readable fi) eqn:Hri; simpl;
      [destruct (utf8_valid (f_data fi)) eqn:Hvi; simpl;
       [destruct (f_writable ft) eqn:Hwt; simpl|]|]|]|]|]|].

(** X1. What the script needs of its files is checked before anything is
    touched: if the target or the insertion file cannot be read (missing,
    unreadable, not UTF-8) or the target cannot be opened for writing,
    the run raises having changed no file and printed nothing, and none
    of its events opens a file for writing or writes to one. *)
Theorem unmet_precondition_changes_nothing (i : Z) (w : world) :
  lines_of w target_path = None
  ∨ lines_of w insertion_path = None
  ∨ writable w target_path = false →
  ∃ e w',
    script i w = (Raise e, w')
    ∧ w_fs w' = w_fs w
    ∧ w_stdout w' = w_stdout w
    ∧ Forall (fun ev => ∀ p, ¬ mutates p ev) (events_since w w')
    ∧ exit_status (fst (script i w)) = 1.
Proof.
  rewrite !lines_of_None. unfold writable.
  script_cases; intros H.
  1: by destruct H as [[?|?]|[[?|?]|?]].
  all: do 2 eexists; split_and!; try done;
    rewrite ?events_since_refl, ?events_since_ran;
    unfold read_events, decode_failure_events; simpl;
    repeat (apply List.Forall_cons;
            [intros p; simpl; first [tauto | by intros [_ [=]]] |]);
    apply List.Forall_nil.
Qed.

Lemma unmet_precondition_changes_nothing_witness :
  ∃ e w',
    main (world_of Posix [xff] (line "X")) = (Raise e, w')
    ∧ w_fs w' = w_fs (world_of Posix [xff] (line "X"))
    ∧ w_stdout w' = w_stdout (world_of Posix [xff] (line "X"))
    ∧ Forall (fun ev => ∀ p, ¬ mutates p ev)
        (events_since (world_of Posix [xff] (line "X")) w')
    ∧ exit_status (fst (main (world_of Posix [xff] (line "X")))) = 1.
Proof.
  apply (unmet_precondition_changes_nothing 633
           (world_of Posix [xff] (line "X"))).
  left. reflexivity.
Defined.

(** X2. The run can go through only if the target and the insertion file
    can both be read as UTF-8 text and the target can be written. *)
Theorem run_succeeds_only_if (i : Z) (w : world) :
  fst (script i w) = Ok tt →
  is_Some (lines_of w target_path)
  ∧ is_Some (lines_of w insertion_path)
  ∧ writable w target_path = true.
Proof.
  rewrite !lines_of_is_Some. unfold writable.
  script_cases; try done.
  intros _. split_and!; [by eexists | by eexists | done].
Qed.

Lemma run_succeeds_only_if_witness :
  is_Some (lines_of (world_of Windows (line "a") (line "X")) target_path)
  ∧ is_Some (lines_of (world_of Windows (line "a") (line "X"))
               insertion_path)
  ∧ writable (world_of Windows (line "a") (line "X")) target_path = true.
Proof.
  apply (run_succeeds_only_if 633 (world_of Windows (line "a") (line "X"))).
  reflexivity.
Defined.

(** X3. A target that cannot be read stops the run at once, before the
    insertion path is opened, and the exception tells what is wrong:
    [FileNotFoundError] with the target path when the target is missing,
    [PermissionError] with the target path when it may not be read, and
    [UnicodeDecodeError], which carries no path, when it is not UTF-8. *)
Theorem unreadable_target_fails_first (i : Z) (w : world) :
  lines_of w target_path = None →
  ∃ e w',
    script i w = (Raise e, w')
    ∧ Forall (fun ev => ¬ on_path insertion_path ev) (events_since w w')
    ∧ (w_fs w !! target_path = None → e = FileNotFoundError target_path)
    ∧ (∀ f, w_fs w !! target_path = Some f → f_readable f = false →
            e = PermissionError target_path)
    ∧ (∀ f, w_fs w !! target_path = Some f → f_readable f = true →
            e = UnicodeDecodeError)
    ∧ (e = UnicodeDecodeError ∨ exn_path e = Some target_path).
Proof.
  intros Hnone%lines_of_None. revert Hnone.
  rewrite script_unfold. simpl.
  destruct (w_fs w !! target_path) as [ft|] eqn:Hft; simpl.
  - destruct (f_readable ft) eqn:Hrt; simpl.
    + intros [?|Hv]; [done|]. rewrite Hv. simpl.
      do 2 eexists. split_and!; try done.
      * rewrite events_since_ran. unfold decode_failure_events.
        repeat (apply List.Forall_cons; [simpl; by intros [=] |]).
        apply List.Forall_nil.
      * intros f [= <-]. congruence.
      * by left.
    + intros _. do 2 eexists. split_and!; try done.
      * rewrite events_since_refl. apply List.Forall_nil.
      * intros f [= <-]. congruence.
      * by right.
  - intros _. do 2 eexists. split_and!; try done.
    + rewrite events_since_refl. apply List.Forall_nil.
    + by right.
Qed.

Lemma unreadable_target_fails_first_witness :
  ∃ e w',
    main world_empty = (Raise e, w')
    ∧ Forall (fun ev => ¬ on_path insertion_path ev)
        (events_since world_empty w')
    ∧ (w_fs world_empty !! target_path = None →
       e = FileNotFoundError target_path)
    ∧ (∀ f, w_fs world_empty !! target_path = Some f →
            f_readable f = false → e = PermissionError target_path)
    ∧ (∀ f, w_fs world_empty !! target_path = Some f →
            f_readable f = true → e = UnicodeDecodeError)
    ∧ (e = UnicodeDecodeError ∨ exn_path e = Some target_path).
Proof.
  apply (unreadable_target_fails_first 633 world_empty). reflexivity.
Defined.

(** X4. A target that can be read but not written is found out only after
    both files were read: the run raises [PermissionError] for the target,
    its events are the two completed reads, and no file has changed. *)
Theorem read_only_target_rejected (i : Z) (w : world) (T S : list str) :
  lines_of w target_path = Some T →
  lines_of w insertion_path = Some S →
  writable w target_path = false →
  ∃ w',
    script i w = (Raise (PermissionError target_path), w')
    ∧ w_fs w' = w_fs w
    ∧ w_stdout w' = w_stdout w
    ∧ events_since w w'
      = read_events (target_reader w) ++ read_events (insertion_reader w).
Proof.
  intros (ft & Ht & Hrt & Hvt & ->)%lines_of_Some
         (fi & Hi & Hri & Hvi & ->)%lines_of_Some Hw.
  unfold writable in Hw. rewrite Ht in Hw.
  rewrite script_unfold. simpl. rewrite Ht, Hi, Hrt, Hvt, Hri, Hvi, Hw. simpl.
  eexists. split_and!; try done. by rewrite events_since_ran.
Qed.

Lemma read_only_target_rejected_witness :
  ∃ w',
    main (world_read_only (line "a") (line "X"))
    = (Raise (PermissionError target_path), w')
    ∧ w_fs w' = w_fs (world_read_only (line "a") (line "X"))
    ∧ w_stdout w' = w_stdout (world_read_only (line "a") (line "X"))
    ∧ events_since (world_read_only (line "a") (line "X")) w'
      = read_events (target_reader (world_read_only (line "a") (line "X")))
          ++ read_events
               (insertion_reader (world_read_only (line "a") (line "X"))).
Proof.
  apply (read_only_target_rejected 633
           (world_read_only (line "a") (line "X")) [line "a"] [line "X"]);
    reflexivity.
Defined.

(** X5. A run changes nothing but the bytes of the file the target path
    leads to: every path that does not lead to that file holds what it
    held, a path that does lead to it shows what the target shows, no
    path appears or disappears, and the target keeps its permissions. *)
Theorem only_target_bytes_change (i : Z) (w : world) :
  (∀ p, ¬ aliased w p target_path →
        w_fs (snd (script i w)) !! p = w_fs w !! p)
  ∧ (∀ p, aliased w p target_path →
          w_fs (snd (script i w)) !! p
          = w_fs (snd (script i w)) !! target_path)
  ∧ dom (w_fs (snd (script i w))) = dom (w_fs w)
  ∧ (∀ f, w_fs w !! target_path = Some f →
          ∃ d, w_fs (snd (script i w)) !! target_path
               = Some (File d (f_readable f) (f_writable f))).
Proof.
  assert (∀ p, aliased w p target_path →
               w_fs w !! p = w_fs w !! target_path) as Hsame.
  { intros p [_ Hp]. by rewrite !w_fs_lookup, Hp. }
  script_cases.
  1: { pose proof (w_fs_named _ _ _ Hft) as (n & Hn & Hin).
       assert (∀ p, ¬ aliased w p target_path →
                    w_fs (succeeded i ft fi w) !! p = w_fs w !! p) as Hother.
       { intros p Hp. apply succeeded_unaliased; [by eexists|].
         intros Heq. apply Hp. split; [|done]. rewrite Heq. by eexists. }
       split_and!.
       - done.
       - intros p Hp. by apply succeeded_aliased.
       - apply set_eq. intros q. rewrite !elem_of_dom.
         destruct (decide (w_names w !! q = w_names w !! target_path))
           as [Heq|Hne].
         + assert (aliased w q target_path) as Hq.
           { split; [|done]. rewrite Heq. by eexists. }
           rewrite (succeeded_aliased _ _ _ _ _ Hq), succeeded_target.
           rewrite (Hsame q Hq). by split; eexists.
         + rewrite Hother; [done|]. by intros [_ ?].
       - intros f [= <-]. rewrite succeeded_target. by eexists. }
  all: split_and!;
    [done | intros p Hp; rewrite ?w_fs_ran, ?Hft; by apply Hsame | done |].
  all: try (intros f [= <-]; rewrite ?w_fs_ran, Hft;
            exists (f_data ft); by destruct ft).
  all: by intros f [=].
Qed.

(** X6. Handles are used one after the other and none is left open: in
    the events of any run, whether it went through or raised, every
    handle that was opened is closed later on and before the next one is
    opened. *)
Theorem every_handle_closed_in_turn (i : Z) (w : world) :
  closed_before_next_open (events_since w (snd (script i w))).
Proof.
  unfold closed_before_next_open.
  script_cases;
    rewrite ?events_since_refl, ?events_since_ran, ?events_since_succeeded;
    unfold read_events, decode_failure_events, write_events; simpl;
    intros k h Hk;
    do 10 (try (destruct k as [|k]; simpl in Hk; [try discriminate Hk|]));
    try discriminate Hk; injection Hk as <-.
  all: try (exists 2%nat; split; [lia|]; split; [done|];
            intros j h' Hj; assert (j = 1%nat) as -> by lia; done).
  all: try (exists 1%nat; split; [lia|]; split; [done|];
            intros j h' Hj; lia).
  all: try (exists 5%nat; split; [lia|]; split; [done|];
            intros j h' Hj; assert (j = 4%nat) as -> by lia; done).
  all: try (exists 4%nat; split; [lia|]; split; [done|];
            intros j h' Hj; lia).
  all: try (exists 8%nat; split; [lia|]; split; [done|];
            intros j h' Hj; assert (j = 7%nat) as -> by lia; done).
Qed.

(* ===================================================================== *)
(** * Further properties: reading back and running again *)
(* ===================================================================== *)

(** X7. What a run has written, a text-mode read delivers again: after a
    run that went through, reading the target gives the lines of the text
    built from [T] and [S], and these are the spliced lines themselves
    whenever no line without terminator has ended up inside the list. *)
Theorem written_target_reads_back (i : Z) (w : world) (T S : list str) :
  lines_of w target_path = Some T →
  lines_of w insertion_path = Some S →
  writable w target_path = true →
  ∃ w',
    script i w = (Ok tt, w')
    ∧ lines_of w' target_path = Some (split_lines (concat (splice T S i)))
    ∧ (lines_wf (splice T S i) →
       lines_of w' target_path = Some (splice T S i)).
Proof.
  intros HT HS Hw.
  destruct (script_succeeds i w T S HT HS Hw) as (w' & Hrun & _ & _ & _ & Hb).
  exists w'. split_and!; [done | done |].
  intros Hwf. by rewrite Hb, split_lines_concat.
Qed.

Lemma written_target_reads_back_witness :
  ∃ w',
    script 1 (world_of Windows (line "a" ++ line "b") (line "X"))
    = (Ok tt, w')
    ∧ lines_of w' target_path
      = Some (split_lines
                (concat (splice [line "a"; line "b"] [line "X"] 1)))
    ∧ (lines_wf (splice [line "a"; line "b"] [line "X"] 1) →
       lines_of w' target_path
       = Some (splice [line "a"; line "b"] [line "X"] 1)).
Proof.
  apply (written_target_reads_back 1
           (world_of Windows (line "a" ++ line "b") (line "X"))
           [line "a"; line "b"] [line "X"]); reflexivity.
Defined.

(** X8. Running the script twice inserts twice: when the insertion path
    does not lead to the target's file and the first run leaves a
    well-formed line sequence, a second run at the same valid index puts
    a second copy of the insertion in front of the first, and the
    confirmation is printed twice. *)
Theorem second_run_inserts_again (i : Z) (w : world) (T S : list str) :
  ¬ aliased w insertion_path target_path →
  lines_of w target_path = Some T →
  lines_of w insertion_path = Some S →
  writable w target_path = true →
  0 ≤ i ≤ Z.of_nat (length T) →
  lines_wf (splice T S i) →
  ∃ w1 w2,
    script i w = (Ok tt, w1)
    ∧ script i w1 = (Ok tt, w2)
    ∧ contents w2 target_path
      = Some (write_newlines (w_os w)
                (concat (take (Z.to_nat i) T ++ S ++ S
                           ++ drop (Z.to_nat i) T)))
    ∧ w_stdout w2
      = w_stdout w ++ (success_message ++ [LF]) ++ (success_message ++ [LF]).
Proof.
  intros Hno HT HS Hw Hi Hwf.
  destruct (script_succeeded_world i w T S HT HS Hw)
    as (ft & fi & Hft & Hfi & Hrt & Hwt & -> & -> & Hrun).
  destruct (script_succeeds i w _ _ HT HS Hw)
    as (w1 & Hrun1 & Hos & _ & Hout1 & Hback).
  assert (w1 = succeeded i ft fi w) as Hw1 by congruence.
  rewrite split_lines_concat in Hback by done.
  assert (lines_of w1 insertion_path = Some
            (split_lines (translate_newlines (f_data fi)))) as HS1.
  { rewrite <- HS. apply lines_of_ext. subst w1.
    pose proof (w_fs_named _ _ _ Hft) as (n & Hn & _).
    apply succeeded_unaliased; [by eexists|].
    intros Heq. apply Hno. split; [|done]. rewrite Heq. by eexists. }
  assert (writable w1 target_path = true) as Hw1w.
  { subst w1. by rewrite succeeded_writable. }
  destruct (script_succeeds i w1 _ _ Hback HS1 Hw1w)
    as (w2 & Hrun2 & _ & Hc2 & Hout2 & _).
  exists w1, w2. split_and!; [done | done | |].
  - rewrite Hc2, Hos. unfold written. by rewrite splice_splice.
  - by rewrite Hout2, Hout1, <- !app_assoc.
Qed.

Lemma second_run_inserts_again_witness :
  ∃ w1 w2,
    script 1 (world_of Posix (line "a" ++ line "b") (line "X")) = (Ok tt, w1)
    ∧ script 1 w1 = (Ok tt, w2)
    ∧ contents w2 target_path
      = Some (line "a" ++ line "X" ++ line "X" ++ line "b")
    ∧ w_stdout w2
      = (success_message ++ [LF]) ++ (success_message ++ [LF]).
Proof.
  apply (second_run_inserts_again 1
           (world_of Posix (line "a" ++ line "b") (line "X"))
           [line "a"; line "b"] [line "X"]);
    [intros [_ H]; vm_compute in H; discriminate H
    | reflexivity | reflexivity | reflexivity | simpl; lia |].
  change (lines_wf (split_lines (line "a" ++ line "X" ++ line "b"))).
  apply split_lines_wf.
Defined.

(** X9. With an empty insertion file the run leaves a clean target as it
    is: on a POSIX host, a target without ['\r'] is rewritten with the very
    bytes it had, whatever the index. *)
Theorem empty_insertion_keeps_clean_target
    (i : Z) (w : world) (t : list byte) (T : list str) :
  w_os w = Posix →
  contents w target_path = Some t → no_CR t →
  lines_of w target_path = Some T →
  lines_of w insertion_path = Some [] →
  writable w target_path = true →
  ∃ w', script i w = (Ok tt, w') ∧ contents w' target_path = Some t.
Proof.
  intros Hos Ht Hclean HT HS Hw.
  destruct (script_succeeds i w T [] HT HS Hw) as (w' & Hrun & _ & Hc & _).
  exists w'. split; [done|]. rewrite Hc, Hos. unfold written, splice. simpl.
  rewrite write_newlines_posix, slice_to_from.
  apply lines_of_Some in HT as (ft & Hft & _ & _ & ->).
  unfold contents in Ht. rewrite Hft in Ht. simpl in Ht. injection Ht as ->.
  by rewrite concat_split_lines, translate_newlines_no_CR.
Qed.

Lemma empty_insertion_keeps_clean_target_witness :
  ∃ w',
    main (world_of Posix (line "a" ++ list_byte_of_string "b") [])
    = (Ok tt, w')
    ∧ contents w' target_path = Some (line "a" ++ list_byte_of_string "b").
Proof.
  apply (empty_insertion_keeps_clean_target 633
           (world_of Posix (line "a" ++ list_byte_of_string "b") [])
           (line "a" ++ list_byte_of_string "b")
           [line "a"; list_byte_of_string "b"]);
    try reflexivity.
  repeat constructor.
Defined.

(** X10. On a POSIX host a run that went through leaves no ['\r'] in the
    target: the line endings of both files have been normalised. *)
Theorem posix_run_leaves_no_carriage_return (i : Z) (w w' : world) :
  w_os w = Posix →
  script i w = (Ok tt, w') →
  ∃ d, contents w' target_path = Some d ∧ no_CR d.
Proof.
  intros Hos Hrun. rewrite script_unfold in Hrun. simpl in Hrun.
  destruct (w_fs w !! target_path) as [ft|]; [|done].
  destruct (f_readable ft); [|done].
  destruct (utf8_valid (f_data ft)); [|done].
  destruct (w_fs w !! insertion_path) as [fi|]; [|done].
  destruct (f_readable fi); [|done].
  destruct (utf8_valid (f_data fi)); [|done].
  destruct (f_writable ft); [|done].
  simpl in Hrun. injection Hrun as <-.
  unfold contents. rewrite succeeded_target. simpl.
  eexists. split; [done|]. unfold written.
  rewrite Hos, write_newlines_posix.
  apply no_CR_concat, Forall_splice;
    apply no_CR_split_lines, translate_newlines_clean.
Qed.

Lemma posix_run_leaves_no_carriage_return_witness :
  ∃ d,
    contents
      (snd (main (world_of Posix (list_byte_of_string "a" ++ [CR; LF])
                    (list_byte_of_string "X" ++ [CR]))))
      target_path = Some d
    ∧ no_CR d.
Proof.
  apply (posix_run_leaves_no_carriage_return 633
           (world_of Posix (list_byte_of_string "a" ++ [CR; LF])
              (list_byte_of_string "X" ++ [CR])));
    [reflexivity | vm_compute; reflexivity].
Defined.

(** X11. A run that went through leaves the target decodable: what it has
    written is well-formed UTF-8, on either platform. *)
Theorem written_target_is_utf8 (i : Z) (w w' : world) :
  script i w = (Ok tt, w') →
  ∃ d, contents w' target_path = Some d ∧ utf8_valid d = true.
Proof.
  intros Hrun. rewrite script_unfold in Hrun. simpl in Hrun.
  destruct (w_fs w !! target_path) as [ft|]; [|done].
  destruct (f_readable ft); [|done].
  destruct (utf8_valid (f_data ft)) eqn:Hvt; [|done].
  destruct (w_fs w !! insertion_path) as [fi|]; [|done].
  destruct (f_readable fi); [|done].
  destruct (utf8_valid (f_data fi)) eqn:Hvi; [|done].
  destruct (f_writable ft); [|done].
  simpl in Hrun. injection Hrun as <-.
  unfold contents. rewrite succeeded_target. simpl.
  eexists. split; [done|]. unfold written.
  apply utf8_valid_complete, utf8_write_newlines, utf8_concat, Forall_splice;
    by apply utf8_split_lines, utf8_translate_newlines, utf8_valid_sound.
Qed.

Lemma written_target_is_utf8_witness :
  ∃ d,
    contents
      (snd (script 1 (world_of Windows ([xc3; xa9] ++ [LF] ++ [xe2; x82; xac])
                        ([xf0; x9f; x98; x80] ++ [LF]))))
      target_path = Some d
    ∧ utf8_valid d = true.
Proof.
  apply (written_target_is_utf8 1
           (world_of Windows ([xc3; xa9] ++ [LF] ++ [xe2; x82; xac])
              ([xf0; x9f; x98; x80] ++ [LF]))).
  vm_compute. reflexivity.
Defined.

(* ===================================================================== *)
(** * Further properties: the spliced list, the lines read, the script as written *)
(* ===================================================================== *)

(** X12. Whatever the index, in range or not, negative or not, the
    spliced list has the lines of [T] and of [S] and no others: it is as
    long as the two together, a rearrangement of [T ++ S], and both [T]
    and [S] sit in it in their own order. *)
Theorem splice_keeps_every_line (T S : list str) (i : Z) :
  length (splice T S i) = (length T + length S)%nat
  ∧ splice T S i ≡ₚ T ++ S
  ∧ T `sublist_of` splice T S i
  ∧ S `sublist_of` splice T S i.
Proof.
  split_and!.
  - apply splice_length.
  - unfold splice. rewrite <- (slice_to_from T i) at 3.
    rewrite <- app_assoc. apply Permutation_app_head, Permutation_app_comm.
  - unfold splice. rewrite <- (slice_to_from T i) at 1.
    apply sublist_app; [done|]. apply sublist_inserts_l. done.
  - unfold splice. apply sublist_inserts_l, sublist_inserts_r. done.
Qed.

(** X13. A negative index counts from the end of the target, as Python
    slices do: [-1] puts the insertion before the last line, and an index
    below [-len(T)] puts it at the very start. *)
Theorem splice_negative_index (T S : list str) (i : Z) :
  i < 0 →
  splice T S i
  = take (Z.to_nat (Z.of_nat (length T) + i)) T ++ S
      ++ drop (Z.to_nat (Z.of_nat (length T) + i)) T
  ∧ (i ≤ - Z.of_nat (length T) → splice T S i = S ++ T).
Proof.
  intros Hi.
  assert (slice_bound (Z.of_nat (length T)) i
          = Z.max 0 (Z.of_nat (length T) + i)) as Hb.
  { unfold slice_bound. destruct (Z.ltb_spec i 0); [done | lia]. }
  assert (Z.to_nat (Z.max 0 (Z.of_nat (length T) + i))
          = Z.to_nat (Z.of_nat (length T) + i)) as Hn by lia.
  assert (splice T S i
          = take (Z.to_nat (Z.of_nat (length T) + i)) T ++ S
              ++ drop (Z.to_nat (Z.of_nat (length T) + i)) T) as Heq.
  { unfold splice, slice_to, slice_from. by rewrite Hb, Hn. }
  split; [done|]. intros Hlow. rewrite Heq.
  replace (Z.to_nat (Z.of_nat (length T) + i)) with 0%nat by lia. done.
Qed.

Lemma splice_negative_index_witness :
  splice [line "a"; line "b"; line "c"] [line "X"] (-1)
  = take 2 [line "a"; line "b"; line "c"] ++ [line "X"]
      ++ drop 2 [line "a"; line "b"; line "c"]
  ∧ (-1 ≤ - 3 →
     splice [line "a"; line "b"; line "c"] [line "X"] (-1)
     = [line "X"] ++ [line "a"; line "b"; line "c"]).
Proof.
  apply (splice_negative_index [line "a"; line "b"; line "c"] [line "X"] (-1)).
  lia.
Defined.

(** X14. Successive insertions compose: a second insertion at the same
    valid index lands in front of the first, and one at the index moved
    on by the length of the first lands behind it. *)
Theorem splice_after_splice (T S1 S2 : list str) (i : Z) :
  0 ≤ i ≤ Z.of_nat (length T) →
  splice (splice T S1 i) S2 i
  = take (Z.to_nat i) T ++ S2 ++ S1 ++ drop (Z.to_nat i) T
  ∧ splice (splice T S1 i) S2 (i + Z.of_nat (length S1))
    = take (Z.to_nat i) T ++ S1 ++ S2 ++ drop (Z.to_nat i) T.
Proof.
  intros Hi. split; [by apply splice_splice|].
  rewrite (splice_valid (splice T S1 i)) by (rewrite splice_length; lia).
  rewrite (splice_valid T) by done.
  replace (Z.to_nat (i + Z.of_nat (length S1)))
    with (length (take (Z.to_nat i) T ++ S1))
    by (rewrite length_app, length_take; lia).
  rewrite (app_assoc _ S1).
  by rewrite take_app_length, drop_app_length, <- !app_assoc.
Qed.

Lemma splice_after_splice_witness :
  splice (splice [line "a"; line "b"] [line "X"] 1) [line "Y"] 1
  = take 1 [line "a"; line "b"] ++ [line "Y"] ++ [line "X"]
      ++ drop 1 [line "a"; line "b"]
  ∧ splice (splice [line "a"; line "b"] [line "X"] 1) [line "Y"]
      (1 + Z.of_nat (length [line "X"]))
    = take 1 [line "a"; line "b"] ++ [line "X"] ++ [line "Y"]
        ++ drop 1 [line "a"; line "b"].
Proof.
  apply (splice_after_splice [line "a"; line "b"] [line "X"] [line "Y"] 1).
  simpl. lia.
Defined.

Lemma terminated_nonempty (l : str) : terminated l → l ≠ [].
Proof. intros (b & -> & _). by destruct b. Qed.

Lemma lines_wf_nonempty (ls : list str) :
  lines_wf ls → Forall (fun l => l ≠ []) ls.
Proof.
  induction 1 as [|l [Hl _]|l ls Hl _ IH].
  - constructor.
  - by repeat constructor.
  - constructor; [by apply terminated_nonempty | done].
Qed.

(** X15. The lines a read delivers lose nothing and have a fixed shape:
    put together they are the text of the file, none of them is empty,
    none holds a ['\r'], and each ends in its only ['\n'], except that the
    last may have none. *)
Theorem read_lines_shape (w : world) (p : string) (ls : list str) :
  lines_of w p = Some ls →
  text_of w p = Some (concat ls)
  ∧ lines_wf ls
  ∧ Forall (fun l => l ≠ []) ls
  ∧ Forall no_CR ls.
Proof.
  intros H. pose proof (lines_of_wf _ _ _ H) as Hwf.
  unfold lines_of in H. destruct (text_of w p) as [t|] eqn:Ht; [|done].
  simpl in H. injection H as <-.
  split_and!.
  - by rewrite concat_split_lines.
  - done.
  - by apply lines_wf_nonempty.
  - apply text_of_Some in Ht as (f & _ & _ & _ & ->).
    apply no_CR_split_lines, translate_newlines_clean.
Qed.

Lemma read_lines_shape_witness :
  text_of (world_of Posix (list_byte_of_string "a" ++ [CR; LF; CR]
                             ++ list_byte_of_string "b") [])
    target_path
  = Some (concat [line "a"; [LF]; list_byte_of_string "b"])
  ∧ lines_wf [line "a"; [LF]; list_byte_of_string "b"]
  ∧ Forall (fun l => l ≠ []) [line "a"; [LF]; list_byte_of_string "b"]
  ∧ Forall no_CR [line "a"; [LF]; list_byte_of_string "b"].
Proof.
  apply (read_lines_shape
           (world_of Posix (list_byte_of_string "a" ++ [CR; LF; CR]
                              ++ list_byte_of_string "b") [])
           target_path).
  reflexivity.
Defined.

(** X16. The script as written puts the handlers between lines 633 and
    634 of a target that has at least 633 lines: the first 633 lines come
    first, then the handlers, then the rest. *)
Theorem main_inserts_after_line_633 (w : world) (T S : list str) :
  lines_of w target_path = Some T →
  lines_of w insertion_path = Some S →
  writable w target_path = true →
  (633 ≤ length T)%nat →
  ∃ w',
    main w = (Ok tt, w')
    ∧ contents w' target_path
      = Some (write_newlines (w_os w)
                (concat (take 633 T) ++ concat S ++ concat (drop 633 T))).
Proof.
  intros HT HS Hw Hlen.
  destruct (script_succeeds 633 w T S HT HS Hw) as (w' & Hrun & _ & Hc & _).
  exists w'. split; [done|]. rewrite Hc. unfold written.
  rewrite splice_valid by lia. by rewrite !concat_app.
Qed.

Lemma main_inserts_after_line_633_witness :
  ∃ w',
    main (world_of Posix (concat (replicate 634 (line "a"))) (line "X"))
    = (Ok tt, w')
    ∧ contents w' target_path
      = Some (concat (replicate 633 (line "a")) ++ line "X" ++ line "a").
Proof.
  destruct (main_inserts_after_line_633
              (world_of Posix (concat (replicate 634 (line "a"))) (line "X"))
              (replicate 634 (line "a")) [line "X"])
    as (w' & Hrun & Hc);
    [vm_compute; reflexivity | reflexivity | reflexivity
    | rewrite length_replicate; lia |].
  exists w'. split; [exact Hrun|]. rewrite Hc. vm_compute. reflexivity.
Defined.

(** X17. On a target of fewer than 633 lines the script as written adds
    the handlers after the last line. *)
Theorem main_appends_to_short_target (w : world) (T S : list str) :
  lines_of w target_path = Some T →
  lines_of w insertion_path = Some S →
  writable w target_path = true →
  (length T < 633)%nat →
  ∃ w',
    main w = (Ok tt, w')
    ∧ contents w' target_path
      = Some (write_newlines (w_os w) (concat T ++ concat S)).
Proof.
  intros HT HS Hw Hlen.
  destruct (script_succeeds 633 w T S HT HS Hw) as (w' & Hrun & _ & Hc & _).
  exists w'. split; [done|]. rewrite Hc. unfold written.
  rewrite splice_past_length by lia. by rewrite concat_app.
Qed.

Lemma main_appends_to_short_target_witness :
  ∃ w',
    main (world_of Windows (line "a" ++ line "b") (line "X")) = (Ok tt, w')
    ∧ contents w' target_path
      = Some (write_newlines Windows
                (concat [line "a"; line "b"] ++ concat [line "X"])).
Proof.
  apply (main_appends_to_short_target
           (world_of Windows (line "a" ++ line "b") (line "X"))
           [line "a"; line "b"] [line "X"]);
    [reflexivity | reflexivity | reflexivity | simpl; lia].
Defined.

(** X18. With an empty insertion file the script only normalises line
    endings, and does so once and for all: a second run, on either
    platform and at any index, leaves the target as the first run left
    it. *)
Theorem empty_insertion_second_run_idle (i : Z) (w : world) (T : list str) :
  lines_of w target_path = Some T →
  lines_of w insertion_path = Some [] →
  writable w target_path = true →
  ∃ w1 w2,
    script i w = (Ok tt, w1)
    ∧ script i w1 = (Ok tt, w2)
    ∧ contents w2 target_path = contents w1 target_path.
Proof.
  intros HT HS Hw.
  destruct (script_succeeded_world i w T [] HT HS Hw)
    as (ft & fi & Hft & Hfi & Hrt & Hwt & HT' & HS' & Hrun).
  destruct (script_succeeds i w _ _ HT HS Hw)
    as (w1 & Hrun1 & Hos & Hc1 & _ & Hback).
  assert (w1 = succeeded i ft fi w) as Hw1 by congruence.
  pose proof (w_fs_named _ _ _ Hft) as (n & Hn & _).
  assert (lines_of w1 insertion_path = Some []) as HS1.
  { destruct (decide (w_names w !! insertion_path
                      = w_names w !! target_path)) as [Heq|Hne].
    - (* the two paths lead to one file, which is empty *)
      assert (aliased w insertion_path target_path) as Hal.
      { split; [|done]. rewrite Heq. by eexists. }
      assert (T = []) as ->.
      { assert (lines_of w insertion_path = lines_of w target_path) as Hl.
        { apply lines_of_same_file. by rewrite !w_fs_lookup, Heq. }
        congruence. }
      unfold splice, slice_to, slice_from in Hback.
      rewrite take_nil, drop_nil in Hback. simpl in Hback.
      rewrite <- Hback. apply lines_of_same_file.
      subst w1. by apply succeeded_aliased.
    - rewrite <- HS. apply lines_of_ext. subst w1.
      apply succeeded_unaliased; [by eexists | done]. }
  assert (writable w1 target_path = true) as Hw1w.
  { subst w1. by rewrite succeeded_writable. }
  destruct (script_succeeds i w1 _ _ Hback HS1 Hw1w)
    as (w2 & Hrun2 & _ & Hc2 & _).
  exists w1, w2. split_and!; [done | done |].
  rewrite Hc2, Hc1, Hos. unfold written, splice. simpl.
  by rewrite !slice_to_from, concat_split_lines.
Qed.

Lemma empty_insertion_second_run_idle_witness :
  ∃ w1 w2,
    main (world_of Posix (list_byte_of_string "a" ++ [CR; LF]) [])
    = (Ok tt, w1)
    ∧ main w1 = (Ok tt, w2)
    ∧ contents w2 target_path = contents w1 target_path.
Proof.
  apply (empty_insertion_second_run_idle 633
           (world_of Posix (list_byte_of_string "a" ++ [CR; LF]) [])
           [line "a"]); reflexivity.
Defined.

(** X19. A read does not see the line-ending convention of a file: a
    clean text stored with ['\n'] and the same text stored with the line
    separator of either platform are delivered as the same lines. *)
Theorem line_endings_read_alike
    (w w' : world) (p : string) (os : platform) (f f' : file) :
  w_fs w !! p = Some f →
  w_fs w' !! p = Some f' →
  f_readable f = true → f_readable f' = true →
  utf8_valid (f_data f) = true → no_CR (f_data f) →
  f_data f' = write_newlines os (f_data f) →
  lines_of w' p = lines_of w p
  ∧ lines_of w p = Some (split_lines (f_data f)).
Proof.
  intros Hf Hf' Hr Hr' Hv Hclean Hdata.
  unfold lines_of, text_of. rewrite Hf, Hf', Hr, Hr', Hv, Hdata. simpl.
  rewrite (utf8_valid_complete _
             (utf8_write_newlines os _ (utf8_valid_sound _ Hv))).
  simpl. by rewrite translate_write_newlines, translate_newlines_no_CR.
Qed.

Lemma line_endings_read_alike_witness :
  lines_of (world_of Posix (list_byte_of_string "a" ++ [CR; LF]
                              ++ list_byte_of_string "b" ++ [CR; LF]) [])
    target_path
  = lines_of (world_of Posix (line "a" ++ line "b") []) target_path
  ∧ lines_of (world_of Posix (line "a" ++ line "b") []) target_path
    = Some (split_lines (line "a" ++ line "b")).
Proof.
  apply (line_endings_read_alike
           (world_of Posix (line "a" ++ line "b") [])
           (world_of Posix (list_byte_of_string "a" ++ [CR; LF]
                              ++ list_byte_of_string "b" ++ [CR; LF]) [])
           target_path Windows
           (File (line "a" ++ line "b") true true)
           (File (list_byte_of_string "a" ++ [CR; LF]
                    ++ list_byte_of_string "b" ++ [CR; LF]) true true));
    try reflexivity.
  repeat constructor.
Defined.
